(** * daily-commit-summarizer: the summarization pipeline of
    [scripts/daily-summary.ts], embedded and verified.

    The script collects today's commits over all remote branches, splits
    every commit's diff into size-bounded chunks, and reduces chunk
    summaries to commit summaries to one daily report, calling a chat
    completion endpoint at each tier.

    Strings are JavaScript strings: finite sequences of UTF-16 code units,
    so that [length] is the script's [.length] and [take]/[drop] are its
    [.slice].  The external collaborators (git, the completion endpoint,
    the clock) are records of what they answer; the delivery of the report
    to the webhook is outside the development. *)

From Stdlib Require Import String Ascii.
From stdpp Require Import base numbers list sorting lexico gmap.

Local Open Scope nat_scope.

(** ** JavaScript strings *)

Module Js.

(** A string is its sequence of UTF-16 code units. *)
Abbreviation code_unit := N.
Abbreviation jsstring := (list N).

(** Literals are written as in the source file, which is UTF-8 encoded;
    [utf16_of_utf8] re-encodes the bytes of a literal as code units. *)
Fixpoint utf16_of_utf8 (bs : list N) : jsstring :=
  match bs with
  | [] => []
  | b0 :: r0 =>
    if (b0 <? 0x80)%N then b0 :: utf16_of_utf8 r0
    else if (b0 <? 0xE0)%N then
      match r0 with
      | b1 :: r1 =>
        N.lor (N.shiftl (N.land b0 0x1F) 6) (N.land b1 0x3F) :: utf16_of_utf8 r1
      | [] => []
      end
    else if (b0 <? 0xF0)%N then
      match r0 with
      | b1 :: b2 :: r2 =>
        N.lor (N.shiftl (N.land b0 0x0F) 12)
          (N.lor (N.shiftl (N.land b1 0x3F) 6) (N.land b2 0x3F))
        :: utf16_of_utf8 r2
      | _ => []
      end
    else
      match r0 with
      | b1 :: b2 :: b3 :: r3 =>
        let cp := N.lor (N.shiftl (N.land b0 0x07) 18)
                   (N.lor (N.shiftl (N.land b1 0x3F) 12)
                     (N.lor (N.shiftl (N.land b2 0x3F) 6) (N.land b3 0x3F))) in
        let v := (cp - 0x10000)%N in
        (0xD800 + N.shiftr v 10)%N :: (0xDC00 + N.land v 0x3FF)%N
        :: utf16_of_utf8 r3
      | _ => []
      end
  end.

Definition lit (s : string) : jsstring :=
  utf16_of_utf8 (N_of_ascii <$> list_ascii_of_string s).

(** The line feed, written as a backslash escape in the source. *)
Definition nl : jsstring := [0x0A]%N.

(** Truthiness of a string: [if (s)], [s || d], [filter(Boolean)]. *)
Definition truthy (s : jsstring) : bool :=
  match s with [] => false | _ :: _ => true end.

(** [a || b] on strings. *)
Definition or_else (a b : jsstring) : jsstring := if truthy a then a else b.

(** [s.slice(i, j)] for indices [0 <= i], [0 <= j]. *)
Definition slice (s : jsstring) (i j : nat) : jsstring := take (j - i) (drop i s).

(** [xs.join(sep)]. *)
Fixpoint join (sep : jsstring) (xs : list jsstring) : jsstring :=
  match xs with
  | [] => []
  | [x] => x
  | x :: rest => x ++ sep ++ join sep rest
  end.

(** Template-literal rendering of a non-negative integer. *)
Fixpoint digits (d : Decimal.uint) : jsstring :=
  match d with
  | Decimal.Nil => []
  | Decimal.D0 r => 48%N :: digits r
  | Decimal.D1 r => 49%N :: digits r
  | Decimal.D2 r => 50%N :: digits r
  | Decimal.D3 r => 51%N :: digits r
  | Decimal.D4 r => 52%N :: digits r
  | Decimal.D5 r => 53%N :: digits r
  | Decimal.D6 r => 54%N :: digits r
  | Decimal.D7 r => 55%N :: digits r
  | Decimal.D8 r => 56%N :: digits r
  | Decimal.D9 r => 57%N :: digits r
  end.

Definition of_nat (n : nat) : jsstring := digits (Nat.to_uint n).

(** White space and line terminators, as [String.prototype.trim] strips. *)
Definition is_line_terminator (c : code_unit) : bool :=
  bool_decide (c ∈ [0x0A; 0x0D; 0x2028; 0x2029]%N).

Definition is_space (c : code_unit) : bool :=
  is_line_terminator c
  || bool_decide (c ∈ [0x09; 0x0B; 0x0C; 0x20; 0xA0; 0x1680; 0x202F; 0x205F;
                        0x3000; 0xFEFF]%N)
  || ((0x2000 <=? c)%N && (c <=? 0x200A)%N).

Fixpoint trim_start (s : jsstring) : jsstring :=
  match s with
  | c :: r => if is_space c then trim_start r else s
  | [] => []
  end.

Definition trim (s : jsstring) : jsstring :=
  reverse (trim_start (reverse (trim_start s))).

(** [s.split(c)] for a one-character separator [c]; [cur] is the piece
    being read. *)
Fixpoint split_on (c : code_unit) (s : jsstring) (cur : jsstring)
    : list jsstring :=
  match s with
  | [] => [cur]
  | x :: r =>
    if bool_decide (x = c) then cur :: split_on c r []
    else split_on c r (cur ++ [x])
  end.

(** [xs.slice(start)] on an array, for any integer [start]: a negative
    [start] counts from the end, and the result is clamped to the array. *)
Definition array_slice_from {A} (start : Z) (xs : list A) : list A :=
  let len := Z.of_nat (length xs) in
  let k := if (start <? 0)%Z then Z.max (len + start) 0 else Z.min start len in
  drop (Z.to_nat k) xs.

(** The default comparison of [Array.prototype.sort]: strings compare by
    their code units, a proper prefix before its extensions. *)
Definition code_unit_le (a b : jsstring) : Prop := a = b \/ lexico a b.

#[export] Instance code_unit_le_dec : RelDecision code_unit_le.
Proof.
  intros a b. unfold code_unit_le.
  destruct (trichotomyT lexico a b) as [[Hlt | Heq] | Hgt].
  - left. by right.
  - left. by left.
  - right. intros [-> | Hlt].
    + by apply (irreflexivity lexico b).
    + apply (irreflexivity lexico a). by trans b.
Defined.

(** [xs.sort()] on an array of strings. *)
Definition sort (xs : list jsstring) : list jsstring :=
  merge_sort code_unit_le xs.

End Js.
Import Js.

(** ** Chunker *)

Module Chunker.

(** The blank line put between two units of one chunk. *)
Definition sep : jsstring := nl ++ nl.

(** The slicing loop of [chunkBySize]:
    [for (let i = 0; i < p.length; i += limit) out.push(p.slice(i, i + limit))].
    One unit of fuel is one evaluation of the loop test; [None] is a loop
    whose test has not yet failed when the fuel is gone.  With a positive
    limit the test fails after at most [length p] steps.  With limit 0 and
    a non-empty [p] it fails at no step: [i] stays 0 and every step pushes
    an empty slice, so the call cannot return, and the engine ends it with
    an error once [out] cannot grow any more ([RangeError: Invalid array
    length], thrown by [out.push]).  [None] for every fuel is that call:
    one that gives no result. *)
Fixpoint slice_loop (fuel : nat) (p : jsstring) (limit i : nat)
    (out : list jsstring) : option (list jsstring) :=
  match fuel with
  | 0 => None
  | S fuel' =>
    if bool_decide (i < length p)
    then slice_loop fuel' p limit (i + limit) (out ++ [slice p i (i + limit)])
    else Some out
  end.

(** The [for (const p of parts)] loop with its two mutable variables [out]
    and [buf], and the final [if (buf) out.push(buf)].  The slicing loop of
    a unit [p] gets [S (length p)] units of fuel, which is enough whenever
    its test ever fails ([slice_loop_fuel]); when it never does
    ([slice_loop_stuck]) the call of [chunkBySize] gives no result, which
    is [None]: the error of the slicing loop is caught nowhere in the
    function. *)
Fixpoint chunk_loop (limit : nat) (parts : list jsstring)
    (out : list jsstring) (buf : jsstring) : option (list jsstring) :=
  match parts with
  | [] => Some (if truthy buf then out ++ [buf] else out)
  | p :: rest =>
    let candidate := if truthy buf then buf ++ sep ++ p else p in
    if bool_decide (limit < length candidate) then
      let out1 := if truthy buf then out ++ [buf] else out in
      if bool_decide (limit < length p) then
        match slice_loop (S (length p)) p limit 0 out1 with
        | Some out2 => chunk_loop limit rest out2 []
        | None => None
        end
      else chunk_loop limit rest out1 p
    else chunk_loop limit rest out candidate
  end.

Definition chunkBySize (parts : list jsstring) (limit : nat)
    : option (list jsstring) :=
  chunk_loop limit parts [] [].

End Chunker.
Import Chunker.

(** ** Configuration and collaborators *)

(** The environment variables the pipeline reads, after [parseInt].  Both
    numbers are taken to be integers, the chunk size a non-negative one; a
    value that does not parse is not modelled. *)
Record Config := {
  REPO : jsstring;
  PER_BRANCH_LIMIT : Z;
  DIFF_CHUNK_MAX_CHARS : nat;
}.

(** What git prints for the commands of the script: every field is the
    standard output of one [execSync] call that succeeded. *)
Record Git := {
  (** [git for-each-ref ... refs/remotes/origin | grep -v origin/HEAD] *)
  for_each_ref : jsstring;
  (** [git log rb --no-merges --since --until --pretty=format:%H --reverse] *)
  log_branch : jsstring -> jsstring;
  (** the same with [--all] in place of the branch *)
  log_all : jsstring;
  (** [git show -s --format=%s sha] and [--format=%an] *)
  show_subject : jsstring -> jsstring;
  show_author : jsstring -> jsstring;
  (** [git rev-list --parents -n 1 sha] *)
  rev_list_parents : jsstring -> jsstring;
  (** [git hash-object -t tree /dev/null] *)
  empty_tree : jsstring;
  (** [git diff --unified=0 --minimal base sha -- . excludes] *)
  diff_base_sha : jsstring -> jsstring -> jsstring;
}.

(** [sh]: the trimmed standard output of a command that succeeded.  A
    command that exits with a non-zero status, or that prints more than
    [maxBuffer], makes [execSync] throw, which ends the script through the
    [catch] of the main function: such a run is outside this model, whose
    [Git] record holds the output of commands that all succeeded. *)
Definition sh (stdout : jsstring) : jsstring := trim stdout.

(** [sh(cmd).split(nl).map((s) => s.trim()).filter(Boolean)] *)
Definition sh_lines (stdout : jsstring) : list jsstring :=
  filter (fun s => truthy s = true) (trim <$> split_on 0x0A%N (sh stdout) []).

(** ** Commit collector *)

Module Collector.

Record CommitMeta := {
  sha : jsstring;
  title : jsstring;
  author : jsstring;
  url : jsstring;
  branches : list jsstring;
}.

(** A JavaScript [Map] with string keys, in insertion order: [set] on a
    present key replaces its value in place. *)
Fixpoint map_set {V} (k : jsstring) (v : V) (m : list (jsstring * V))
    : list (jsstring * V) :=
  match m with
  | [] => [(k, v)]
  | (k', v') :: r =>
    if decide (k = k') then (k, v) :: r else (k', v') :: map_set k v r
  end.

Section Collect.
Variable cfg : Config.
Variable git : Git.

Definition remoteBranches : list jsstring := sh_lines (for_each_ref git).

Definition branchToCommits : list (jsstring * list jsstring) :=
  foldl (fun m rb =>
           let list := sh_lines (log_branch git rb) in
           map_set rb (array_slice_from (- PER_BRANCH_LIMIT cfg) list) m)
        [] remoteBranches.

(** [if (!shaToBranches.has(sha)) shaToBranches.set(sha, new Set());
     shaToBranches.get(sha)!.add(rb);] *)
Definition add_branch (rb : jsstring)
    (m : gmap jsstring (gset jsstring)) (sha : jsstring)
    : gmap jsstring (gset jsstring) :=
  let m1 := if decide (is_Some (m !! sha)) then m else <[sha := ∅]> m in
  alter (fun s => s ∪ {[rb]}) sha m1.

Definition shaToBranches : gmap jsstring (gset jsstring) :=
  foldl (fun m '(rb, shas) => foldl (add_branch rb) m shas) ∅ branchToCommits.

Definition allShasOrdered : list jsstring := sh_lines (log_all git).

(** [allShasOrdered.filter(...)], whose callback reads and updates [seen]. *)
Fixpoint filter_seen (seen : gset jsstring) (xs : list jsstring)
    : list jsstring :=
  match xs with
  | [] => []
  | sha :: rest =>
    if decide (sha ∈ seen) then filter_seen seen rest
    else if decide (is_Some (shaToBranches !! sha))
         then sha :: filter_seen (seen ∪ {[sha]}) rest
         else filter_seen seen rest
  end.

Definition commitShas : list jsstring := filter_seen ∅ allShasOrdered.

Definition serverUrl : jsstring := lit "https://github.com".

Definition commitMeta (sha : jsstring) : CommitMeta :=
  {| sha := sha;
     title := sh (show_subject git sha);
     author := sh (show_author git sha);
     url := if truthy (REPO cfg)
            then serverUrl ++ lit "/" ++ REPO cfg ++ lit "/commit/" ++ sha
            else serverUrl ++ lit "/commit/" ++ sha;
     branches := sort (elements (default ∅ (shaToBranches !! sha))) |}.

Definition commitMetas : list CommitMeta := commitMeta <$> commitShas.
End Collect.

End Collector.
Import Collector.

(** ** Diff fetcher *)

Module Fetcher.

Section Fetch.
Variable git : Git.

(** [line.split(" ").filter(Boolean)[1]]: [None] is [undefined]. *)
Definition getParentSha (sha : jsstring) : option jsstring :=
  let line := sh (rev_list_parents git sha) in
  let parts := filter (fun s => truthy s = true) (split_on 0x20%N line []) in
  parts !! 1.

Definition getDiff (sha : jsstring) : jsstring :=
  let base := match getParentSha sha with
              | Some parent => or_else parent (sh (empty_tree git))
              | None => sh (empty_tree git)
              end in
  sh (diff_base_sha git base sha).
End Fetch.

Definition diff_git : jsstring := lit "diff --git".

(** [patch.split(/^diff --git.*$/m)].  A separator starts at the beginning
    of a line ([bol]) that begins with [diff --git] and runs up to, not
    including, the next line terminator; [in_sep] is true inside one, and
    [cur] is the piece being read. *)
Fixpoint split_loop (s : jsstring) (bol in_sep : bool) (cur : jsstring)
    : list jsstring :=
  match s with
  | [] => [cur]
  | c :: r =>
    if in_sep then
      if is_line_terminator c then split_loop r true false [c]
      else split_loop r false true cur
    else if bol && bool_decide (diff_git `prefix_of` s)
    then cur :: split_loop r false true []
    else split_loop r (is_line_terminator c) false (cur ++ [c])
  end.

Definition splitPatchByFile (patch : jsstring) : list jsstring :=
  if truthy patch
  then filter (fun s => truthy s = true) (trim <$> split_loop patch true false [])
  else [].

End Fetcher.
Import Fetcher.

(** ** Completion endpoint *)

Module Chat.

(** What one HTTPS request comes back with: a socket error, or a response
    with its status code ([None] when absent) and body. *)
Inductive HttpOutcome :=
| NetworkError (e : jsstring)
| Response (statusCode : option N) (data : jsstring).

(** Evaluating [JSON.parse(data)?.choices?.[0]?.message?.content] and the
    call of [.trim] on it: it throws (the error, as [String(e)]), or reads a
    string, or reads [undefined]. *)
Inductive Parsed :=
| Throws (e : jsstring)
| Content (c : option jsstring).

(** The outside world of one run: the request sent after [n] earlier ones,
    with a given prompt, has one outcome (every request is taken to
    settle), and the clock gives the date label. *)
Record World := {
  request : nat -> jsstring -> HttpOutcome;
  parse_content : jsstring -> Parsed;
  todayLabel : jsstring;
}.

(** A settled promise of [chat]; a rejection carries [String(e)]. *)
Inductive Completion :=
| Resolved (content : jsstring)
| Rejected (e : jsstring).

Definition status_text (code : option N) : jsstring :=
  match code with
  | Some n => of_nat (N.to_nat n)
  | None => lit "undefined"
  end.

Definition status_ok (code : option N) : bool :=
  match code with
  | Some n => negb (n =? 0)%N && (200 <=? n)%N && (n <? 300)%N
  | None => false
  end.

Definition chat (w : World) (n : nat) (prompt : jsstring) : Completion :=
  match request w n prompt with
  | NetworkError e => Rejected e
  | Response code data =>
    if status_ok code then
      match parse_content w data with
      | Throws e => Rejected e
      | Content (Some c) => Resolved (or_else (trim c) [])
      | Content None => Resolved []
      end
    else Rejected (lit "Error: OpenAI HTTP " ++ status_text code ++ lit ": " ++ data)
  end.

End Chat.
Import Chat.

(** ** Summarization reducer *)

Module Reducer.

(** The run as a computation over the log of prompts sent so far; [None]
    is a run that is cut short: a call of the chunker gave no result, and
    the error that ended it, thrown outside every [try], reaches the
    [catch] of the main function, which exits with status 1 before
    anything is reported. *)
Definition M (A : Type) : Type := list jsstring -> option (A * list jsstring).

Definition ret {A} (a : A) : M A := fun log => Some (a, log).

Definition bind {A B} (m : M A) (k : A -> M B) : M B :=
  fun log => match m log with
             | Some (a, log') => k a log'
             | None => None
             end.

Notation "x <- m ;; k" := (bind m (fun x => k))
  (at level 100, m at next level, right associativity).

(** [await chat(prompt)]: the request is logged and settles. *)
Definition call_chat (w : World) (prompt : jsstring) : M Completion :=
  fun log => Some (chat w (length log) prompt, log ++ [prompt]).

(** An error thrown outside every [try] of the main function. *)
Definition aborts {A} : M A := fun _ => None.

Definition commitChunkPrompt (meta : CommitMeta) (partIdx total : nat)
    (patch : jsstring) : jsstring :=
  lit "你是一名资深工程师与发布经理。以下是提交 " ++ slice (sha meta) 0 7
  ++ lit "（" ++ title meta ++ lit "）的 diff 片段（第 " ++ of_nat partIdx
  ++ lit "/" ++ of_nat total ++ lit " 段），请用中文输出结构化摘要：" ++ nl
  ++ nl
  ++ lit "提交信息：" ++ nl
  ++ lit "- SHA: " ++ sha meta ++ nl
  ++ lit "- 标题: " ++ title meta ++ nl
  ++ lit "- 作者: " ++ author meta ++ nl
  ++ lit "- 分支: " ++ join (lit ", ") (branches meta) ++ nl
  ++ lit "- 链接: " ++ url meta ++ nl
  ++ nl
  ++ lit "要求输出：" ++ nl
  ++ lit "1) 变更要点（面向工程师与产品）：列出此片段涉及的主要改动与意图" ++ nl
  ++ lit "2) 影响范围：模块/接口/关键文件" ++ nl
  ++ lit "3) 风险&回滚点" ++ nl
  ++ lit "4) 测试建议" ++ nl
  ++ lit "注意：仅基于当前片段，不要臆测；不要贴长代码；如果只是格式化/重命名也请明确指出。" ++ nl
  ++ nl
  ++ lit "=== DIFF PART BEGIN ===" ++ nl
  ++ patch ++ nl
  ++ lit "=== DIFF PART END ===".

(** [parts.map((p, i) => ...)] of [commitMergePrompt]: the summary at
    0-based position [i] under its label. *)
Fixpoint label_from (i : nat) (parts : list jsstring) : list jsstring :=
  match parts with
  | [] => []
  | p :: rest =>
    (lit "【片段" ++ of_nat (i + 1) ++ lit "】" ++ nl ++ p) :: label_from (S i) rest
  end.

(** [joined] of [commitMergePrompt]. *)
Definition joined (parts : list jsstring) : jsstring :=
  join (nl ++ nl) (label_from 0 parts).

Definition commitMergePrompt (meta : CommitMeta) (parts : list jsstring)
    : jsstring :=
  lit "下面是提交 " ++ slice (sha meta) 0 7
  ++ lit " 的各片段小结，请合并为**单条提交**的最终摘要（中文），输出以下小节：" ++ nl
  ++ lit "- 变更概述（不超过5条要点）" ++ nl
  ++ lit "- 影响范围（模块/接口/配置）" ++ nl
  ++ lit "- 风险与回滚点" ++ nl
  ++ lit "- 测试建议" ++ nl
  ++ lit "- 面向用户的可见影响（如有）" ++ nl
  ++ nl
  ++ lit "请避免重复、合并同类项，标注“可能不完整”当某些片段缺失或被截断。" ++ nl
  ++ nl
  ++ lit "=== 片段小结集合 BEGIN ===" ++ nl
  ++ joined parts ++ nl
  ++ lit "=== 片段小结集合 END ===".

Definition dailyMergePrompt (dateLabel : jsstring)
    (items : list (CommitMeta * jsstring)) (repo : jsstring) : jsstring :=
  let body :=
    join (nl ++ nl ++ lit "---" ++ nl ++ nl)
      ((fun it : CommitMeta * jsstring =>
          lit "[" ++ slice (sha it.1) 0 7 ++ lit "] " ++ title it.1
          ++ lit " — " ++ author it.1 ++ lit " — "
          ++ join (lit ", ") (branches it.1) ++ nl
          ++ it.2) <$> items) in
  lit "请将以下“当日各提交摘要”整合成**当日开发变更日报（中文）**，输出结构如下：" ++ nl
  ++ lit "# " ++ dateLabel ++ lit " 开发变更日报（" ++ repo ++ lit ")" ++ nl
  ++ lit "1. 今日概览（不超过5条）" ++ nl
  ++ lit "2. **按分支**的关键改动清单（每条含模块/影响、是否潜在破坏性）" ++ nl
  ++ lit "3. 跨分支风险与回滚策略（如同一提交在多个分支、存在 cherry-pick/divergence）" ++ nl
  ++ lit "4. 建议测试与验证清单" ++ nl
  ++ lit "5. 其他备注（如重构/依赖升级/仅格式化）" ++ nl
  ++ nl
  ++ lit "=== 当日提交摘要 BEGIN ===" ++ nl
  ++ body ++ nl
  ++ lit "=== 当日提交摘要 END ===".

(** The summary of a commit whose diff is empty. *)
Definition zero_diff_summary : jsstring :=
  lit "（无有效业务改动或改动已被过滤，例如 lockfile/构建产物/二进制，或空提交）".

(** The two substitutes of the chunk tier, for the chunk labelled [n]. *)
Definition empty_marker (n : nat) : jsstring :=
  lit "（片段" ++ of_nat n ++ lit "摘要为空）".

Definition failure_marker (n : nat) (e : jsstring) : jsstring :=
  lit "（片段" ++ of_nat n ++ lit "调用失败：" ++ e ++ lit "）".

Section Reduce.
Variable cfg : Config.
Variable git : Git.
Variable w : World.

(** [for (let i = 0; i < chunks.length; i++)] from index [i] on, [chunks]
    being the chunks not yet visited and [total] being [chunks.length]. *)
Fixpoint chunk_tier (meta : CommitMeta) (total i : nat)
    (chunks : list jsstring) (partSummaries : list jsstring)
    : M (list jsstring) :=
  match chunks with
  | [] => ret partSummaries
  | c :: rest =>
    r <- call_chat w (commitChunkPrompt meta (i + 1) total c);;
    let s := match r with
             | Resolved sum => or_else sum (empty_marker (i + 1))
             | Rejected e => failure_marker (i + 1) e
             end in
    chunk_tier meta total (S i) rest (partSummaries ++ [s])
  end.

(** The merge of the chunk summaries into the commit summary. *)
Definition commit_tier (meta : CommitMeta) (partSummaries : list jsstring)
    : M jsstring :=
  r <- call_chat w (commitMergePrompt meta partSummaries);;
  ret match r with
      | Resolved merged => merged
      | Rejected _ => join (nl ++ nl) partSummaries
      end.

(** One iteration of [for (const meta of commitMetas)]: the entry pushed
    on [perCommitFinal]. *)
Definition process_commit (meta : CommitMeta) : M (CommitMeta * jsstring) :=
  let fullPatch := getDiff git (sha meta) in
  if negb (truthy fullPatch) || negb (truthy (trim fullPatch))
  then ret (meta, zero_diff_summary)
  else
    let fileParts := splitPatchByFile fullPatch in
    match chunkBySize fileParts (DIFF_CHUNK_MAX_CHARS cfg) with
    | None => aborts
    | Some chunks =>
      partSummaries <- chunk_tier meta (length chunks) 0 chunks [];;
      merged <- commit_tier meta partSummaries;;
      ret (meta, merged)
    end.

Fixpoint commit_loop (metas : list CommitMeta)
    (perCommitFinal : list (CommitMeta * jsstring))
    : M (list (CommitMeta * jsstring)) :=
  match metas with
  | [] => ret perCommitFinal
  | meta :: rest =>
    item <- process_commit meta;;
    commit_loop rest (perCommitFinal ++ [item])
  end.

Definition daily_fallback (perCommitFinal : list (CommitMeta * jsstring))
    : jsstring :=
  lit "（当日汇总失败，以下为逐提交原始小结拼接）" ++ nl ++ nl
  ++ join (nl ++ nl ++ lit "---" ++ nl ++ nl)
       ((fun it : CommitMeta * jsstring =>
           lit "[" ++ slice (sha it.1) 0 7 ++ lit "] " ++ title it.1
           ++ lit " — " ++ join (lit ", ") (branches it.1) ++ nl
           ++ it.2) <$> perCommitFinal).

Definition daily_tier (perCommitFinal : list (CommitMeta * jsstring))
    : M jsstring :=
  r <- call_chat w (dailyMergePrompt (todayLabel w) perCommitFinal
                      (or_else (REPO cfg) (lit "repository")));;
  ret match r with
      | Resolved daily => daily
      | Rejected _ => daily_fallback perCommitFinal
      end.

(** The run from the collected commits on.  A run that comes to its end
    returns [None] on the early exit on no commits, otherwise the reduced
    entries and the text of the report, which the script then hands to the
    webhook. *)
Definition main : M (option (list (CommitMeta * jsstring) * jsstring)) :=
  let metas := commitMetas cfg git in
  if bool_decide (length (commitShas cfg git) = 0) then ret None
  else
    perCommitFinal <- commit_loop metas [];;
    daily <- daily_tier perCommitFinal;;
    ret (Some (perCommitFinal, daily)).
End Reduce.

End Reducer.
Import Reducer.


(** ** A small repository and three days of answers

    History runs [c1], [c2], [c3]: [origin/main] is at [c2] and
    [origin/dev] at [c3]; [c0] is on no remote branch and the scan lists
    [c1] twice.  The diff of [c1] is empty, the diff of [c2] touches two
    files and the diff of [c3] one. *)

Module Sample.

Definition c0 : jsstring := lit "c0c0c0c0".
Definition c1 : jsstring := lit "c1c1c1c1".
Definition c2 : jsstring := lit "c2c2c2c2".
Definition c3 : jsstring := lit "c3c3c3c3".

Definition diff_c2 : jsstring :=
  lit "diff --git a/f.ts b/f.ts" ++ nl
  ++ lit "@@ -1 +1 @@" ++ nl
  ++ lit "-old line of f" ++ nl
  ++ lit "+new line of f" ++ nl
  ++ lit "diff --git a/g.ts b/g.ts" ++ nl
  ++ lit "@@ -3 +3 @@" ++ nl
  ++ lit "+new line of g" ++ nl.

Definition diff_c3 : jsstring :=
  lit "diff --git a/h.ts b/h.ts" ++ nl
  ++ lit "@@ -1 +1 @@" ++ nl
  ++ lit "+h" ++ nl.

Definition git : Git :=
  {| for_each_ref := lit "origin/main" ++ nl ++ lit "origin/dev" ++ nl;
     log_branch := fun rb =>
       if decide (rb = lit "origin/main") then c1 ++ nl ++ c2 ++ nl
       else if decide (rb = lit "origin/dev") then c1 ++ nl ++ c2 ++ nl ++ c3 ++ nl
       else [];
     log_all := c0 ++ nl ++ c1 ++ nl ++ c2 ++ nl ++ c1 ++ nl ++ c3 ++ nl;
     show_subject := fun sha => lit "change " ++ sha;
     show_author := fun _ => lit "dev";
     rev_list_parents := fun sha => sha ++ lit " " ++ lit "9f9f9f9f" ++ nl;
     empty_tree := lit "4b825dc642cb6eb9a060e54bf8d69288fbee4904" ++ nl;
     diff_base_sha := fun _ sha =>
       if decide (sha = c2) then diff_c2
       else if decide (sha = c3) then diff_c3
       else nl |}.

Definition cfg : Config :=
  {| REPO := lit "org/repo"; PER_BRANCH_LIMIT := 200;
     DIFF_CHUNK_MAX_CHARS := 40 |}.

(** The same with the per-branch limit set to 1, and to 0. *)
Definition cfg_limit1 : Config :=
  {| REPO := lit "org/repo"; PER_BRANCH_LIMIT := 1;
     DIFF_CHUNK_MAX_CHARS := 40 |}.

Definition cfg_limit0 : Config :=
  {| REPO := lit "org/repo"; PER_BRANCH_LIMIT := 0;
     DIFF_CHUNK_MAX_CHARS := 40 |}.

(** A day on which every request is answered; the parsed content of a
    body is the body itself. *)
Definition fine_day : World :=
  {| request := fun _ _ => Response (Some 200%N) (lit "summary");
     parse_content := fun data => Content (Some data);
     todayLabel := lit "2025-01-01" |}.

(** A day on which the first, second and third requests are answered, and
    every later one fails with a socket error. *)
Definition merge_down_day : World :=
  {| request := fun n _ =>
       if bool_decide (n < 3) then Response (Some 200%N) (lit "summary")
       else NetworkError (lit "Error: socket hang up");
     parse_content := fun data => Content (Some data);
     todayLabel := lit "2025-01-01" |}.

(** A day on which the second request gets a 500 and the bodies of the
    others carry no content. *)
Definition silent_day : World :=
  {| request := fun n _ =>
       if bool_decide (n = 1) then Response (Some 500%N) (lit "busy")
       else Response (Some 200%N) (lit "{}");
     parse_content := fun _ => Content None;
     todayLabel := lit "2025-01-01" |}.


Definition meta_c2 : CommitMeta := commitMeta cfg git c2.

Definition chunks_c2 : list jsstring :=
  default [] (chunkBySize (splitPatchByFile (getDiff git c2))
                (DIFF_CHUNK_MAX_CHARS cfg)).

(** The prompts of the three chunks of [c2], and three summaries of it. *)
Definition chunk_prompts_c2 : list jsstring :=
  imap (fun k c => commitChunkPrompt meta_c2 (k + 1) (length chunks_c2) c)
    chunks_c2.

Definition summary : jsstring := lit "summary".
Definition sums_c2 : list jsstring := [summary; summary; summary].

(** Units for the chunker: two short ones, one of 11 characters, an empty
    one and a last short one; two units of 4 characters; and the same
    after an empty unit. *)
Definition units_mixed : list jsstring :=
  [lit "ab"; lit "c"; lit "defghijklmn"; lit ""; lit "op"].

Definition chunks_mixed : list jsstring :=
  [lit "ab" ++ nl ++ nl ++ lit "c"; lit "defgh"; lit "ijklm"; lit "n"; lit "op"].

Definition units_4_4 : list jsstring := [lit "aaaa"; lit "bbbb"].
Definition units_0_4_4 : list jsstring := [lit ""; lit "aaaa"; lit "bbbb"].

(** The two files of the diff of [c2]: the rest of the header line and
    the lines of the patch. *)
Definition files_c2 : list (jsstring * jsstring) :=
  [(lit " a/f.ts b/f.ts",
    lit "@@ -1 +1 @@" ++ nl ++ lit "-old line of f" ++ nl ++ lit "+new line of f");
   (lit " a/g.ts b/g.ts",
    lit "@@ -3 +3 @@" ++ nl ++ lit "+new line of g")].

(** The configuration with the chunk size set to 0. *)
Definition cfg_chunk0 : Config :=
  {| REPO := lit "org/repo"; PER_BRANCH_LIMIT := 200;
     DIFF_CHUNK_MAX_CHARS := 0 |}.

(** A repository whose branches have no commit in the window. *)
Definition git_quiet : Git :=
  {| for_each_ref := for_each_ref git;
     log_branch := fun _ => [];
     log_all := c0 ++ nl;
     show_subject := show_subject git;
     show_author := show_author git;
     rev_list_parents := rev_list_parents git;
     empty_tree := empty_tree git;
     diff_base_sha := diff_base_sha git |}.

(** The same repository when git lists [origin/main] twice. *)
Definition git_twice : Git :=
  {| for_each_ref := lit "origin/main" ++ nl ++ lit "origin/dev" ++ nl
                     ++ lit "origin/main" ++ nl;
     log_branch := log_branch git;
     log_all := log_all git;
     show_subject := show_subject git;
     show_author := show_author git;
     rev_list_parents := rev_list_parents git;
     empty_tree := empty_tree git;
     diff_base_sha := diff_base_sha git |}.

End Sample.

(** ** Vocabulary of the statements *)

(** [s] occurs in [t] as a contiguous substring. *)
Definition occurs_in (s t : jsstring) : Prop :=
  exists pre post, t = pre ++ s ++ post.

(** How the chunker consumed a run of consecutive units: an empty unit met
    while the buffer was empty leaves no text; units packed together make
    one chunk, joined by blank lines; an oversized unit is cut into slices,
    each a chunk of its own. *)
Inductive Piece :=
| Skipped
| Packed (units : list jsstring)
| Sliced (unit : jsstring) (slices : list jsstring).

Definition units_of (pc : Piece) : list jsstring :=
  match pc with
  | Skipped => [[]]
  | Packed units => units
  | Sliced unit _ => [unit]
  end.

Definition chunks_of (pc : Piece) : list jsstring :=
  match pc with
  | Skipped => []
  | Packed units => [join sep units]
  | Sliced _ slices => slices
  end.

Definition piece_ok (pc : Piece) : Prop :=
  match pc with
  | Skipped => True
  | Packed units => units <> []
  | Sliced unit slices => concat slices = unit
  end.

(** The units from the first non-empty one on. *)
Fixpoint drop_empty (parts : list jsstring) : list jsstring :=
  match parts with
  | [] :: rest => drop_empty rest
  | _ => parts
  end.

(** The summed length of the units, separators not counted. *)
Definition total_length (parts : list jsstring) : nat :=
  sum_list (length <$> parts).

(** The commit ids kept for a branch: the last [PER_BRANCH_LIMIT] lines of
    its log, as [branchToCommits] stores them. *)
Definition branch_commits (cfg : Config) (git : Git) (rb : jsstring)
    : list jsstring :=
  array_slice_from (- PER_BRANCH_LIMIT cfg) (sh_lines (log_branch git rb)).

(** [rb] is one of the branches recorded for [sha]. *)
Definition attributed (m : gmap jsstring (gset jsstring)) (sha rb : jsstring)
    : Prop :=
  exists bs, m !! sha = Some bs /\ rb ∈ bs.

(** Every id in the map has a branch: sets are created on first use and
    only ever grow. *)
Definition inhabited_sets (m : gmap jsstring (gset jsstring)) : Prop :=
  forall sha, is_Some (m !! sha) -> exists rb, attributed m sha rb.

(** A string made of white space only, and a string that neither begins
    nor ends with white space. *)
Definition blank (s : jsstring) : Prop := Forall (fun c => is_space c = true) s.

Definition clean (s : jsstring) : Prop :=
  forall c, head s = Some c \/ last s = Some c -> is_space c = false.

(** A token: a non-empty string without any white space, such as a commit
    id or a branch name. *)
Definition token (s : jsstring) : Prop :=
  s <> [] /\ Forall (fun c => is_space c = false) s.

(** Whether [l] occurs in [s], by search. *)
Fixpoint mentions (l s : jsstring) : bool :=
  bool_decide (l `prefix_of` s)
  || match s with [] => false | _ :: r => mentions l r end.

(** The text git prints for one file: the header line, whose rest is
    [header], and the lines of the patch, [body]. *)
Definition file_section (hb : jsstring * jsstring) : jsstring :=
  diff_git ++ hb.1 ++ nl ++ hb.2.

(** The entries of a listing in the order in which they are first listed:
    an entry stays where it first stands and is dropped wherever it is
    listed again. *)
Fixpoint first_listed (l : list jsstring) : list jsstring :=
  match l with
  | [] => []
  | x :: l => x :: filter (fun y => y <> x) (first_listed l)
  end.

(** ** Strings *)

Section JsFacts.
Implicit Types (s t p : jsstring) (xs : list jsstring).

Lemma truthy_true s : truthy s = true <-> s <> [].
Proof. destruct s; naive_solver. Qed.

Lemma truthy_false s : truthy s = false <-> s = [].
Proof. destruct s; naive_solver. Qed.

Lemma join_cons2 d s t xs : join d (s :: t :: xs) = s ++ d ++ join d (t :: xs).
Proof. reflexivity. Qed.

Lemma join_snoc d xs p : xs <> [] -> join d (xs ++ [p]) = join d xs ++ d ++ p.
Proof.
  induction xs as [|s [|t xs] IH]; intros Hne; [done | done |].
  change ((s :: t :: xs) ++ [p]) with (s :: t :: (xs ++ [p])).
  rewrite !join_cons2.
  change (t :: xs ++ [p]) with ((t :: xs) ++ [p]).
  rewrite IH by done. by rewrite <- !(assoc_L (++)).
Qed.

Lemma join_merge_head d s t xs :
  join d ((s ++ d ++ t) :: xs) = join d (s :: t :: xs).
Proof.
  destruct xs as [|u xs]; [done |].
  rewrite !join_cons2. by rewrite <- !(assoc_L (++)).
Qed.

Lemma length_join_head d s xs : length s <= length (join d (s :: xs)).
Proof.
  destruct xs as [|t xs]; [done |].
  rewrite join_cons2, !length_app. lia.
Qed.

Lemma length_join_tail d s xs : length (join d xs) <= length (join d (s :: xs)).
Proof.
  destruct xs as [|t xs]; [simpl; lia |].
  rewrite join_cons2, !length_app. lia.
Qed.

Lemma occurs_in_refl s : occurs_in s s.
Proof. exists [], []. by rewrite app_nil_r. Qed.

Lemma occurs_in_app_l s t u : occurs_in s t -> occurs_in s (t ++ u).
Proof.
  intros (pre & post & ->). exists pre, (post ++ u).
  by rewrite <- !(assoc_L (++)).
Qed.

Lemma occurs_in_app_r s t u : occurs_in s t -> occurs_in s (u ++ t).
Proof.
  intros (pre & post & ->). exists (u ++ pre), post.
  by rewrite <- !(assoc_L (++)).
Qed.

Lemma occurs_in_join d s xs : s ∈ xs -> occurs_in s (join d xs).
Proof.
  induction xs as [|t [|u xs] IH]; intros Hin.
  - by apply elem_of_nil in Hin.
  - apply list_elem_of_singleton in Hin as ->. apply occurs_in_refl.
  - rewrite join_cons2. apply elem_of_cons in Hin as [-> | Hin].
    + apply occurs_in_app_l, occurs_in_refl.
    + by apply occurs_in_app_r, occurs_in_app_r, IH.
Qed.
End JsFacts.

(** ** Chunker: the slicing loop *)

Section SliceLoop.
Implicit Types (p : jsstring) (out ss : list jsstring).

(** Whatever the limit, a slicing loop that ends has appended consecutive
    slices of the unit, none longer than the limit. *)
Lemma slice_loop_sound fuel p limit i out res :
  slice_loop fuel p limit i out = Some res ->
  exists ss, res = out ++ ss /\ concat ss = drop i p
             /\ Forall (fun c => length c <= limit) ss.
Proof.
  revert i out. induction fuel as [|fuel IH]; intros i out; simpl; [done |].
  case_bool_decide as Hi.
  - intros (ss & -> & Hcat & Hlen)%IH.
    exists (slice p i (i + limit) :: ss). split_and!.
    + by rewrite <- (assoc_L (++)).
    + simpl. rewrite Hcat. unfold slice.
      replace (i + limit - i) with limit by lia.
      rewrite <- (drop_drop p limit i). apply take_drop.
    + constructor; [| done]. unfold slice. rewrite length_take. lia.
  - intros [= <-]. exists []. rewrite app_nil_r, drop_ge by lia. done.
Qed.

(** With a positive limit the loop ends within [S (length p)] tests. *)
Lemma slice_loop_total fuel p limit i out :
  0 < limit -> length p - i < fuel ->
  is_Some (slice_loop fuel p limit i out).
Proof.
  intros Hlimit. revert i out.
  induction fuel as [|fuel IH]; intros i out Hfuel; simpl; [lia |].
  case_bool_decide; [apply IH; lia | done].
Qed.

(** More fuel does not change the result of a loop that ends. *)
Lemma slice_loop_fuel fuel fuel' p limit i out res :
  slice_loop fuel p limit i out = Some res -> fuel <= fuel' ->
  slice_loop fuel' p limit i out = Some res.
Proof.
  revert fuel' i out. induction fuel as [|fuel IH]; intros fuel' i out; [done |].
  intros Hrun Hle. destruct fuel' as [|fuel']; [lia |].
  simpl in *. case_bool_decide; [apply IH; [done | lia] | done].
Qed.

(** With limit 0 the test of the loop over a non-empty rest never fails:
    no amount of fuel gives a result. *)
Lemma slice_loop_stuck fuel p i out :
  i < length p -> slice_loop fuel p 0 i out = None.
Proof.
  intros Hi. revert out. induction fuel as [|fuel IH]; intros out; [done |].
  simpl. rewrite bool_decide_eq_true_2 by done.
  rewrite Nat.add_0_r. apply IH.
Qed.
End SliceLoop.

(** ** Chunker: the packing loop *)

Section ChunkLoop.
Implicit Types (p buf : jsstring) (parts out cur : list jsstring).

Lemma chunk_loop_nil limit out buf :
  chunk_loop limit [] out buf
  = Some (if truthy buf then out ++ [buf] else out).
Proof. reflexivity. Qed.

Lemma chunk_loop_cons limit p rest out buf :
  chunk_loop limit (p :: rest) out buf
  = if bool_decide (limit < length (if truthy buf then buf ++ sep ++ p else p))
    then
      if bool_decide (limit < length p) then
        match slice_loop (S (length p)) p limit 0
                (if truthy buf then out ++ [buf] else out) with
        | Some out2 => chunk_loop limit rest out2 []
        | None => None
        end
      else chunk_loop limit rest (if truthy buf then out ++ [buf] else out) p
    else chunk_loop limit rest out (if truthy buf then buf ++ sep ++ p else p).
Proof. reflexivity. Qed.

Lemma chunk_loop_bounded limit parts out buf res :
  chunk_loop limit parts out buf = Some res ->
  Forall (fun c => length c <= limit) out -> length buf <= limit ->
  Forall (fun c => length c <= limit) res.
Proof.
  revert out buf. induction parts as [|p rest IH]; intros out buf.
  - rewrite chunk_loop_nil. intros [= <-] Hout Hbuf.
    destruct (truthy buf); [| done].
    apply Forall_app. split; [done | by apply Forall_singleton].
  - rewrite chunk_loop_cons. intros Hrun Hout Hbuf.
    assert (Hout1 : Forall (fun c => length c <= limit)
                      (if truthy buf then out ++ [buf] else out)).
    { destruct (truthy buf); [| done].
      apply Forall_app. split; [done | by apply Forall_singleton]. }
    case_bool_decide as Hcand; [case_bool_decide as Hp |].
    + destruct (slice_loop _ _ _ _ _) as [out2|] eqn:Hslices; [| done].
      apply slice_loop_sound in Hslices as (ss & -> & _ & Hss).
      apply (IH _ _ Hrun); [by apply Forall_app | simpl; lia].
    + apply (IH _ _ Hrun); [done | lia].
    + apply (IH _ _ Hrun); [done | lia].
Qed.

Lemma chunk_loop_total limit parts out buf :
  0 < limit -> is_Some (chunk_loop limit parts out buf).
Proof.
  intros Hlimit. revert out buf.
  induction parts as [|p rest IH]; intros out buf; [done |].
  rewrite chunk_loop_cons.
  case_bool_decide; [case_bool_decide |]; try apply IH.
  destruct (slice_loop_total (S (length p)) p limit 0
              (if truthy buf then out ++ [buf] else out)) as [out2 ->];
    [done | lia | apply IH].
Qed.

(** The loop reads the units in order: what it returns is the chunks of a
    sequence of pieces whose units are the buffered units [cur] followed
    by the units still to be read. *)
Lemma chunk_loop_pieces limit parts out buf cur res :
  buf = join sep cur -> (buf = [] -> cur = []) ->
  chunk_loop limit parts out buf = Some res ->
  exists ps, res = out ++ concat (chunks_of <$> ps)
             /\ concat (units_of <$> ps) = cur ++ parts
             /\ Forall piece_ok ps.
Proof.
  revert out buf cur res.
  induction parts as [|p rest IH]; intros out buf cur res Hbuf Hcur.
  - rewrite chunk_loop_nil. intros [= <-].
    destruct buf as [|c buf'] eqn:Ebuf; simpl.
    + rewrite (Hcur eq_refl). exists []. by rewrite !app_nil_r.
    + exists [Packed cur]. simpl. rewrite <- Hbuf, !app_nil_r.
      split_and!; [done | done |]. constructor; [| done].
      simpl. by intros ->.
  - assert (Hfresh : forall out' res', chunk_loop limit rest out' p = Some res' ->
              exists ps, res' = out' ++ concat (chunks_of <$> ps)
                         /\ concat (units_of <$> ps) = p :: rest
                         /\ Forall piece_ok ps).
    { intros out' res' Hrun. destruct p as [|c p'].
      - destruct (IH out' [] [] res') as (ps & -> & Hunits & Hok); [done.. |].
        exists (Skipped :: ps). csimpl. rewrite Hunits.
        split_and!; [done | done | by constructor].
      - destruct (IH out' (c :: p') [c :: p'] res') as (ps & -> & Hunits & Hok);
          [done | done | done |]. by exists ps. }
    rewrite chunk_loop_cons.
    destruct buf as [|c buf'] eqn:Ebuf; cbn [truthy].
    + rewrite (Hcur eq_refl). cbn [app].
      case_bool_decide as Hp; [| apply Hfresh].
      destruct (slice_loop _ _ _ _ _) as [out2|] eqn:Hslices; [| done].
      apply slice_loop_sound in Hslices as (ss & -> & Hcat & _).
      intros (ps & -> & Hunits & Hok)%(IH _ [] []); [| done..].
      exists (Sliced p ss :: ps). csimpl. rewrite Hunits.
      split_and!; [by rewrite <- (assoc_L (++)) | done | by constructor].
    + assert (Hne : cur <> []) by (intros ->; done).
      case_bool_decide as Hcand; [case_bool_decide as Hp |].
      * destruct (slice_loop _ _ _ _ _) as [out2|] eqn:Hslices; [| done].
        apply slice_loop_sound in Hslices as (ss & -> & Hcat & _).
        intros (ps & -> & Hunits & Hok)%(IH _ [] []); [| done..].
        exists (Packed cur :: Sliced p ss :: ps). csimpl.
        rewrite Hunits, <- Hbuf. split_and!.
        -- by rewrite <- !(assoc_L (++)).
        -- done.
        -- by repeat constructor.
      * intros (ps & -> & Hunits & Hok)%Hfresh.
        exists (Packed cur :: ps). csimpl. rewrite Hunits, <- Hbuf.
        split_and!; [by rewrite <- !(assoc_L (++)) | done | by constructor].
      * intros (ps & -> & Hunits & Hok)%(IH _ _ (cur ++ [p])).
        -- exists ps. by rewrite <- (assoc_L (++)) in Hunits.
        -- rewrite join_snoc by done. by rewrite <- Hbuf.
        -- done.
Qed.
End ChunkLoop.

(** ** Chunker: units that fit in one chunk *)

Section OneChunk.
Implicit Types (p buf : jsstring) (parts out : list jsstring).

(** A non-empty buffer that fits together with all remaining units
    absorbs them all. *)
Lemma chunk_loop_fits limit parts out buf :
  buf <> [] -> length (join sep (buf :: parts)) <= limit ->
  chunk_loop limit parts out buf = Some (out ++ [join sep (buf :: parts)]).
Proof.
  revert buf. induction parts as [|p rest IH]; intros buf Hbuf Hfit.
  - rewrite chunk_loop_nil. by apply truthy_true in Hbuf as ->.
  - rewrite chunk_loop_cons. apply truthy_true in Hbuf as Htruthy.
    rewrite Htruthy, <- join_merge_head in *.
    rewrite bool_decide_eq_false_2.
    + apply IH; [| done]. by destruct buf.
    + pose proof (length_join_head sep (buf ++ sep ++ p) rest). lia.
Qed.

Lemma chunk_loop_fits_fresh limit parts out :
  Exists (fun p => p <> []) parts -> length (join sep parts) <= limit ->
  chunk_loop limit parts out [] = Some (out ++ [join sep (drop_empty parts)]).
Proof.
  induction parts as [|p rest IH]; intros Hex Hfit.
  - by apply Exists_nil in Hex.
  - rewrite chunk_loop_cons. cbn [truthy].
    destruct p as [|c p'].
    + rewrite bool_decide_eq_false_2 by (simpl; lia).
      apply Exists_cons in Hex as [? | Hex]; [done |].
      apply IH; [done |].
      pose proof (length_join_tail sep [] rest). lia.
    + rewrite bool_decide_eq_false_2.
      * by apply chunk_loop_fits.
      * pose proof (length_join_head sep (c :: p') rest). lia.
Qed.
End OneChunk.

(** ** Chunker: the claims *)

(** C1. With a positive limit [chunkBySize] returns, and no chunk it
    returns is longer than the limit; a single unit of 25 characters under
    limit 10 comes back as three chunks of 10, 10 and 5 characters. *)
Theorem chunkBySize_within_limit :
  (forall (parts : list jsstring) (limit : nat),
      0 < limit ->
      exists out, chunkBySize parts limit = Some out
                  /\ Forall (fun c => length c <= limit) out)
  /\ (forall p : jsstring,
         length p = 25 ->
         exists c1 c2 c3, chunkBySize [p] 10 = Some [c1; c2; c3]
                          /\ length c1 = 10 /\ length c2 = 10 /\ length c3 = 5).
Proof.
  split.
  - intros parts limit Hlimit.
    destruct (chunk_loop_total limit parts [] [] Hlimit) as [out Hrun].
    exists out. split; [done |].
    apply (chunk_loop_bounded _ _ _ _ _ Hrun); [done | simpl; lia].
  - intros p Hlen.
    do 25 (destruct p as [|? p]; [done |]). destruct p; [| done].
    eexists _, _, _. split; [reflexivity | done].
Qed.

Lemma chunkBySize_within_limit_witness :
  0 < 4
  /\ (exists out, chunkBySize [lit "abc"; lit "defghijklm"; lit "no"] 4 = Some out
                  /\ Forall (fun c => length c <= 4) out)
  /\ length (lit "abcdefghijklmnopqrstuvwxy") = 25
  /\ (exists c1 c2 c3,
         chunkBySize [lit "abcdefghijklmnopqrstuvwxy"] 10 = Some [c1; c2; c3]
         /\ length c1 = 10 /\ length c2 = 10 /\ length c3 = 5).
Proof.
  split; [lia |]. split.
  - apply (proj1 chunkBySize_within_limit). lia.
  - split; [reflexivity |].
    apply (proj2 chunkBySize_within_limit). reflexivity.
Defined.

(** C7. [chunkBySize] preserves the order of the units: the chunks it
    returns are, in order, the chunks of a sequence of pieces whose units
    are, in order, the input units, where a packed piece is one chunk made
    of its units joined by blank lines and a sliced piece is one unit cut
    into consecutive slices.  With a positive limit it does return. *)
Theorem chunkBySize_order_preserving (parts : list jsstring) (limit : nat) :
  (0 < limit -> is_Some (chunkBySize parts limit))
  /\ forall out, chunkBySize parts limit = Some out ->
       exists ps, concat (units_of <$> ps) = parts
                  /\ concat (chunks_of <$> ps) = out
                  /\ Forall piece_ok ps.
Proof.
  split; [apply chunk_loop_total |].
  intros out Hrun.
  destruct (chunk_loop_pieces limit parts [] [] [] out) as (ps & -> & ? & ?);
    [done.. |].
  by exists ps.
Qed.

Lemma chunkBySize_order_preserving_witness :
  0 < 5
  /\ chunkBySize Sample.units_mixed 5 = Some Sample.chunks_mixed
  /\ exists ps, concat (units_of <$> ps) = Sample.units_mixed
                /\ concat (chunks_of <$> ps) = Sample.chunks_mixed
                /\ Forall piece_ok ps.
Proof.
  split; [lia |]. split; [reflexivity |].
  apply (proj2 (chunkBySize_order_preserving Sample.units_mixed 5)).
  reflexivity.
Defined.

(** C8, as stated, fails: two units of 4 characters have total length 8,
    yet under limit 8 they come back as two chunks, because the blank line
    between them counts; and a single empty unit comes back as no chunk. *)
Lemma chunkBySize_one_chunk_counterexample :
  (Sample.units_4_4 <> [] /\ total_length Sample.units_4_4 <= 8
   /\ chunkBySize Sample.units_4_4 8 = Some [lit "aaaa"; lit "bbbb"])
  /\ ([lit ""] <> [] /\ total_length [lit ""] <= 8
      /\ chunkBySize [lit ""] 8 = Some []).
Proof. split; (split; [done |]); split; (reflexivity || (vm_compute; lia)). Qed.

(** C8, amended. Units of which one at least is non-empty and whose join
    by blank lines is no longer than the limit come back as exactly one
    chunk: that join, from the first non-empty unit on. *)
Theorem chunkBySize_one_chunk (parts : list jsstring) (limit : nat) :
  Exists (fun p => p <> []) parts ->
  length (join sep parts) <= limit ->
  chunkBySize parts limit = Some [join sep (drop_empty parts)].
Proof. intros Hex Hfit. by apply (chunk_loop_fits_fresh limit parts []). Qed.

Lemma chunkBySize_one_chunk_witness :
  Exists (fun p => p <> []) Sample.units_0_4_4
  /\ length (join sep Sample.units_0_4_4) <= 12
  /\ chunkBySize Sample.units_0_4_4 12
     = Some [lit "aaaa" ++ nl ++ nl ++ lit "bbbb"].
Proof.
  assert (Hex : Exists (fun p => p <> []) Sample.units_0_4_4)
    by (right; by left).
  assert (Hfit : length (join sep Sample.units_0_4_4) <= 12)
    by (vm_compute; lia).
  split; [exact Hex |]. split; [exact Hfit |].
  exact (chunkBySize_one_chunk Sample.units_0_4_4 12 Hex Hfit).
Defined.

(** ** Collector: maps in insertion order *)

Section MapSet.
Context {V : Type}.
Implicit Types (k : jsstring) (v : V) (m : list (jsstring * V)).

(** In a map whose values are given by [f], setting a key to its value
    adds that entry and changes nothing else. *)
Lemma elem_of_map_set (f : jsstring -> V) k m kv :
  (forall kv', kv' ∈ m -> kv'.2 = f kv'.1) ->
  kv ∈ map_set k (f k) m <-> kv = (k, f k) \/ kv ∈ m.
Proof.
  induction m as [|[k0 v0] m IH]; intros Hm; simpl.
  - rewrite list_elem_of_singleton, elem_of_nil. tauto.
  - assert (Hm' : forall kv', kv' ∈ m -> kv'.2 = f kv'.1).
    { intros kv' Hin. apply Hm. by right. }
    destruct (decide (k = k0)) as [<- | Hne].
    + assert (v0 = f k) as ->. { apply (Hm (k, v0)). by left. }
      rewrite !elem_of_cons. tauto.
    + rewrite !elem_of_cons, (IH Hm'). tauto.
Qed.

(** Filling a map from a list of keys, each with the value [f] gives it. *)
Lemma elem_of_foldl_map_set (f : jsstring -> V) (ks : list jsstring) m kv :
  (forall kv', kv' ∈ m -> kv'.2 = f kv'.1) ->
  kv ∈ foldl (fun m k => map_set k (f k) m) m ks
  <-> kv ∈ m \/ (kv.1 ∈ ks /\ kv.2 = f kv.1).
Proof.
  revert m. induction ks as [|k ks IH]; intros m Hm; simpl.
  - rewrite elem_of_nil. tauto.
  - rewrite IH.
    + rewrite (elem_of_map_set f k m kv Hm), elem_of_cons.
      destruct kv as [k' v']; simpl. split.
      * intros [[[= -> ->] | Hin] | [Hin Hv]]; auto.
      * intros [Hin | [[-> | Hin] ->]]; auto.
    + intros kv'. rewrite (elem_of_map_set f k m kv' Hm).
      intros [-> | Hin]; auto.
Qed.
End MapSet.

(** ** Collector: attribution of commits to branches *)

Section Attribution.
Implicit Types (m : gmap jsstring (gset jsstring)) (sha rb : jsstring).

Lemma lookup_add_branch rb m sha sha' :
  add_branch rb m sha !! sha'
  = if decide (sha = sha') then Some (default ∅ (m !! sha) ∪ {[rb]})
    else m !! sha'.
Proof.
  unfold add_branch. rewrite lookup_alter.
  destruct (decide (sha = sha')) as [<- | Hne].
  - destruct (decide (is_Some (m !! sha))) as [[bs Hbs] | Hnone].
    + by rewrite Hbs.
    + apply eq_None_not_Some in Hnone. rewrite Hnone, lookup_insert_eq. done.
  - destruct (decide (is_Some (m !! sha))); [done |].
    by rewrite lookup_insert_ne.
Qed.

Lemma attributed_add_branch rb m sha sha' rb' :
  attributed (add_branch rb m sha) sha' rb'
  <-> attributed m sha' rb' \/ (sha' = sha /\ rb' = rb).
Proof.
  unfold attributed. rewrite lookup_add_branch.
  destruct (decide (sha = sha')) as [<- | Hne].
  - split.
    + intros (bs & [= <-] & Hin). apply elem_of_union in Hin as [Hin | Hin].
      * left. destruct (m !! sha) as [bs|]; [by exists bs |].
        by apply elem_of_empty in Hin.
      * right. by apply elem_of_singleton in Hin.
    + intros [(bs & Hbs & Hin) | [_ ->]]; eexists; (split; [done |]).
      * rewrite Hbs. apply elem_of_union. by left.
      * apply elem_of_union. right. by apply elem_of_singleton.
  - split; [by left | intros [? | [-> _]]; done].
Qed.

Lemma attributed_foldl_add_branch rb shas m sha' rb' :
  attributed (foldl (add_branch rb) m shas) sha' rb'
  <-> attributed m sha' rb' \/ (sha' ∈ shas /\ rb' = rb).
Proof.
  revert m. induction shas as [|sha shas IH]; intros m; simpl.
  - rewrite elem_of_nil. tauto.
  - rewrite IH, attributed_add_branch, elem_of_cons.
    split; [intros [[? | [-> ->]] | [? ->]] | intros [? | [[-> | ?] ->]]]; auto.
Qed.

Lemma attributed_foldl_entries (entries : list (jsstring * list jsstring))
    m sha' rb' :
  attributed
    (foldl (fun m '(rb, shas) => foldl (add_branch rb) m shas) m entries)
    sha' rb'
  <-> attributed m sha' rb'
      \/ exists shas, (rb', shas) ∈ entries /\ sha' ∈ shas.
Proof.
  revert m. induction entries as [|[rb shas] entries IH]; intros m; simpl.
  - split; [by left | intros [? | (shas & Hin & _)]; [done |]].
    by apply elem_of_nil in Hin.
  - rewrite IH, attributed_foldl_add_branch. split.
    + intros [[? | [? ->]] | (shas' & ? & ?)]; [by left | right..].
      * exists shas. split; [by left | done].
      * exists shas'. split; [by right | done].
    + intros [? | (shas' & [[= -> ->] | ?]%elem_of_cons & ?)]; [by auto | by auto |].
      right. by exists shas'.
Qed.

Lemma inhabited_add_branch rb m sha :
  inhabited_sets m -> inhabited_sets (add_branch rb m sha).
Proof.
  intros Hm sha' Hsome. destruct (decide (sha = sha')) as [<- | Hne].
  - exists rb. apply attributed_add_branch. by right.
  - rewrite lookup_add_branch, decide_False in Hsome by done.
    destruct (Hm _ Hsome) as [rb' ?]. exists rb'.
    apply attributed_add_branch. by left.
Qed.

Lemma inhabited_foldl_add_branch rb shas m :
  inhabited_sets m -> inhabited_sets (foldl (add_branch rb) m shas).
Proof.
  revert m. induction shas as [|sha shas IH]; intros m Hm; simpl; [done |].
  by apply IH, inhabited_add_branch.
Qed.

Lemma inhabited_foldl_entries (entries : list (jsstring * list jsstring)) m :
  inhabited_sets m ->
  inhabited_sets
    (foldl (fun m '(rb, shas) => foldl (add_branch rb) m shas) m entries).
Proof.
  revert m. induction entries as [|[rb shas] entries IH]; intros m Hm; simpl;
    [done |].
  by apply IH, inhabited_foldl_add_branch.
Qed.
End Attribution.

(** ** Collector: what the maps hold *)

Section CollectorFacts.
Variable cfg : Config.
Variable git : Git.

Lemma elem_of_branchToCommits rb shas :
  (rb, shas) ∈ branchToCommits cfg git
  <-> rb ∈ remoteBranches git /\ shas = branch_commits cfg git rb.
Proof.
  unfold branchToCommits.
  rewrite (elem_of_foldl_map_set (branch_commits cfg git)
             (remoteBranches git) [] (rb, shas)).
  - rewrite elem_of_nil. simpl. tauto.
  - intros kv' Hin. by apply elem_of_nil in Hin.
Qed.

Lemma attributed_shaToBranches sha rb :
  attributed (shaToBranches cfg git) sha rb
  <-> rb ∈ remoteBranches git /\ sha ∈ branch_commits cfg git rb.
Proof.
  unfold shaToBranches. rewrite attributed_foldl_entries. split.
  - intros [(bs & Hbs & _) | (shas & Hin & Hsha)].
    + by rewrite lookup_empty in Hbs.
    + by apply elem_of_branchToCommits in Hin as [? ->].
  - intros [Hrb Hsha]. right. exists (branch_commits cfg git rb).
    split; [by apply elem_of_branchToCommits | done].
Qed.

Lemma shaToBranches_has sha :
  is_Some (shaToBranches cfg git !! sha)
  <-> exists rb, rb ∈ remoteBranches git /\ sha ∈ branch_commits cfg git rb.
Proof.
  split.
  - intros Hsome.
    destruct (inhabited_foldl_entries (branchToCommits cfg git) ∅) with sha
      as [rb Hrb]; [| done |].
    + intros sha' [bs Hbs]. by rewrite lookup_empty in Hbs.
    + exists rb. by apply attributed_shaToBranches.
  - intros (rb & Hrb). apply attributed_shaToBranches in Hrb as (bs & Hbs & _).
    by exists bs.
Qed.

Lemma elem_of_filter_seen seen xs sha :
  sha ∈ filter_seen cfg git seen xs
  <-> sha ∈ xs /\ (sha ∉ seen) /\ is_Some (shaToBranches cfg git !! sha).
Proof.
  revert seen. induction xs as [|x xs IH]; intros seen; simpl.
  - rewrite elem_of_nil. tauto.
  - destruct (decide (x ∈ seen)) as [Hseen | Hnew];
      [| destruct (decide (is_Some (shaToBranches cfg git !! x))) as [Hhas | Hno]].
    + rewrite IH, elem_of_cons. split; [tauto |].
      intros [[-> | ?] [? ?]]; tauto.
    + rewrite !elem_of_cons, IH, not_elem_of_union, not_elem_of_singleton.
      split; [intros [-> | ?]; tauto |].
      destruct (decide (sha = x)); tauto.
    + rewrite IH, elem_of_cons. split; [tauto |].
      intros [[-> | ?] [? ?]]; tauto.
Qed.




Lemma elem_of_commitShas sha :
  sha ∈ commitShas cfg git
  <-> sha ∈ allShasOrdered git
      /\ exists rb, rb ∈ remoteBranches git /\ sha ∈ branch_commits cfg git rb.
Proof.
  unfold commitShas. rewrite elem_of_filter_seen, shaToBranches_has.
  rewrite elem_of_empty. tauto.
Qed.

Lemma elem_of_commitMeta_branches sha rb :
  rb ∈ branches (commitMeta cfg git sha)
  <-> rb ∈ remoteBranches git /\ sha ∈ branch_commits cfg git rb.
Proof.
  rewrite <- attributed_shaToBranches. unfold attributed. simpl. unfold sort.
  rewrite merge_sort_Permutation, elem_of_elements.
  destruct (shaToBranches cfg git !! sha) as [bs|]; simpl.
  - split; [by exists bs | by intros (? & [= <-] & ?)].
  - rewrite elem_of_empty. split; [done | by intros (? & ? & ?)].
Qed.
End CollectorFacts.

#[local] Instance code_unit_le_total : Total code_unit_le.
Proof.
  intros a b. unfold code_unit_le.
  destruct (trichotomyT lexico a b) as [[? | ?] | ?]; auto.
Qed.

(** With a positive limit a branch keeps the last [PER_BRANCH_LIMIT] ids
    of its log, and all of them when there are no more than that. *)
Lemma branch_commits_keeps_last cfg git rb :
  (0 < PER_BRANCH_LIMIT cfg)%Z ->
  let log := sh_lines (log_branch git rb) in
  branch_commits cfg git rb
  = drop (length log - Z.to_nat (PER_BRANCH_LIMIT cfg)) log.
Proof.
  intros Hpos log. unfold branch_commits, array_slice_from. fold log.
  rewrite (proj2 (Z.ltb_lt _ _)) by lia. f_equal. lia.
Qed.

(** ** Collector: the claims *)



(** C9, as stated, fails. With the per-branch limit set to 1, commit [c2]
    is in the log of both remote branches, yet only [origin/main] keeps it
    ([origin/dev] keeps the later [c3]), and its record carries that one
    branch. *)
Lemma commitMetas_branches_counterexample :
  lit "origin/main" ∈ remoteBranches Sample.git
  /\ lit "origin/dev" ∈ remoteBranches Sample.git
  /\ Sample.c2 ∈ sh_lines (log_branch Sample.git (lit "origin/main"))
  /\ Sample.c2 ∈ sh_lines (log_branch Sample.git (lit "origin/dev"))
  /\ commitMeta Sample.cfg_limit1 Sample.git Sample.c2
     ∈ commitMetas Sample.cfg_limit1 Sample.git
  /\ branches (commitMeta Sample.cfg_limit1 Sample.git Sample.c2)
     = [lit "origin/main"].
Proof.
  split_and!.
  - apply (list_elem_of_lookup_2 _ 0). vm_compute. reflexivity.
  - apply (list_elem_of_lookup_2 _ 1). vm_compute. reflexivity.
  - apply (list_elem_of_lookup_2 _ 1). vm_compute. reflexivity.
  - apply (list_elem_of_lookup_2 _ 1). vm_compute. reflexivity.
  - apply (list_elem_of_lookup_2 _ 0). vm_compute. reflexivity.
  - vm_compute. reflexivity.
Qed.

(** C9, amended. Every commit record handed to the reducer has a
    non-empty [branches] field, sorted by code units and without repeats,
    holding exactly the tracked branches that keep the commit among the
    ids left after the per-branch cut; so a commit kept by two tracked
    branches carries both names. *)
Theorem commitMetas_branches (cfg : Config) (git : Git) (meta : CommitMeta) :
  meta ∈ commitMetas cfg git ->
  branches meta <> []
  /\ Sorted code_unit_le (branches meta)
  /\ NoDup (branches meta)
  /\ (forall rb,
         rb ∈ branches meta
         <-> rb ∈ remoteBranches git /\ sha meta ∈ branch_commits cfg git rb)
  /\ (forall rb1 rb2,
         rb1 ∈ remoteBranches git -> sha meta ∈ branch_commits cfg git rb1 ->
         rb2 ∈ remoteBranches git -> sha meta ∈ branch_commits cfg git rb2 ->
         rb1 ∈ branches meta /\ rb2 ∈ branches meta).
Proof.
  unfold commitMetas. intros (id & -> & Hid)%list_elem_of_fmap.
  assert (Hin : forall rb,
             rb ∈ branches (commitMeta cfg git id)
             <-> rb ∈ remoteBranches git /\ id ∈ branch_commits cfg git rb)
    by apply elem_of_commitMeta_branches.
  split_and!.
  - apply elem_of_commitShas in Hid as [_ (rb & Hrb)].
    apply Hin in Hrb. intros Hnil. rewrite Hnil in Hrb.
    by apply elem_of_nil in Hrb.
  - apply Sorted_merge_sort. apply _.
  - simpl. unfold sort. rewrite merge_sort_Permutation. apply NoDup_elements.
  - exact Hin.
  - intros rb1 rb2 ? ? ? ?. split; by apply Hin.
Qed.

Lemma commitMetas_branches_witness :
  Sample.meta_c2 ∈ commitMetas Sample.cfg Sample.git
  /\ branches Sample.meta_c2 = [lit "origin/dev"; lit "origin/main"]
  /\ branches Sample.meta_c2 <> []
  /\ Sorted code_unit_le (branches Sample.meta_c2)
  /\ (lit "origin/main" ∈ branches Sample.meta_c2
      /\ lit "origin/dev" ∈ branches Sample.meta_c2).
Proof.
  assert (Hmeta : Sample.meta_c2 ∈ commitMetas Sample.cfg Sample.git).
  { apply (list_elem_of_lookup_2 _ 1). vm_compute. reflexivity. }
  destruct (commitMetas_branches Sample.cfg Sample.git Sample.meta_c2 Hmeta)
    as (Hne & Hsorted & _ & _ & Hboth).
  split; [exact Hmeta |]. split; [vm_compute; reflexivity |].
  split; [exact Hne |]. split; [exact Hsorted |].
  apply Hboth.
  - apply (list_elem_of_lookup_2 _ 0). vm_compute. reflexivity.
  - apply (list_elem_of_lookup_2 _ 1). vm_compute. reflexivity.
  - apply (list_elem_of_lookup_2 _ 1). vm_compute. reflexivity.
  - apply (list_elem_of_lookup_2 _ 1). vm_compute. reflexivity.
Defined.

Example per_branch_limit_one_keeps_last :
  branchToCommits Sample.cfg_limit1 Sample.git
  = [(lit "origin/main", [Sample.c2]); (lit "origin/dev", [Sample.c3])].
Proof. vm_compute. reflexivity. Qed.

(** C6, where the code departs from it. With [PER_BRANCH_LIMIT] set to 0
    the branches of the sample repository have two and three commits, more
    than the limit, and [branchToCommits] keeps all of them instead of
    none: [list.slice(-0)] is [list.slice(0)]. *)
Theorem per_branch_limit_zero_keeps_all :
  PER_BRANCH_LIMIT Sample.cfg_limit0 = 0%Z
  /\ sh_lines (log_branch Sample.git (lit "origin/main")) = [Sample.c1; Sample.c2]
  /\ sh_lines (log_branch Sample.git (lit "origin/dev"))
     = [Sample.c1; Sample.c2; Sample.c3]
  /\ branchToCommits Sample.cfg_limit0 Sample.git
     = [(lit "origin/main", [Sample.c1; Sample.c2]);
        (lit "origin/dev", [Sample.c1; Sample.c2; Sample.c3])].
Proof. split_and!; vm_compute; reflexivity. Qed.

(** ** Reducer: the chunk tier *)

Section ChunkTier.
Variable w : World.
Implicit Types (meta : CommitMeta) (chunks acc log : list jsstring).

Lemma empty_marker_truthy n : empty_marker n <> [].
Proof. intros Hnil. vm_compute in Hnil. discriminate Hnil. Qed.

Lemma failure_marker_truthy n e : failure_marker n e <> [].
Proof. intros Hnil. vm_compute in Hnil. discriminate Hnil. Qed.

Lemma chunk_tier_cons meta total i c rest acc log :
  chunk_tier w meta total i (c :: rest) acc log
  = chunk_tier w meta total (S i) rest
      (acc ++ [match chat w (length log) (commitChunkPrompt meta (i + 1) total c) with
               | Resolved sum => or_else sum (empty_marker (i + 1))
               | Rejected e => failure_marker (i + 1) e
               end])
      (log ++ [commitChunkPrompt meta (i + 1) total c]).
Proof. reflexivity. Qed.

(** The loop visits every chunk, in order, whatever the answers: it sends
    one prompt per chunk and records one summary per chunk. *)
Lemma chunk_tier_run meta total i chunks acc log :
  exists sums,
    chunk_tier w meta total i chunks acc log
    = Some (acc ++ sums,
            log ++ imap (fun k c => commitChunkPrompt meta (i + k + 1) total c)
                     chunks)
    /\ length sums = length chunks
    /\ forall k c,
         chunks !! k = Some c ->
         sums !! k
         = Some match chat w (length log + k)
                        (commitChunkPrompt meta (i + k + 1) total c) with
                | Resolved sum => or_else sum (empty_marker (i + k + 1))
                | Rejected e => failure_marker (i + k + 1) e
                end.
Proof.
  revert i acc log. induction chunks as [|c rest IH]; intros i acc log.
  - exists []. by rewrite !app_nil_r.
  - rewrite chunk_tier_cons.
    destruct (IH (S i) (acc ++ [match chat w (length log)
                                       (commitChunkPrompt meta (i + 1) total c) with
                                | Resolved sum => or_else sum (empty_marker (i + 1))
                                | Rejected e => failure_marker (i + 1) e
                                end])
                (log ++ [commitChunkPrompt meta (i + 1) total c]))
      as (sums & -> & Hlen & Hsums).
    eexists (_ :: sums). split_and!.
    + rewrite imap_cons, <- !(assoc_L (++)). cbn [app]. rewrite Nat.add_0_r.
      do 4 f_equal. apply imap_ext. intros k c' _. simpl.
      by replace (i + S k) with (S (i + k)) by lia.
    + simpl. by rewrite Hlen.
    + intros [|k] c' Hc'; simplify_eq/=.
      * by rewrite !Nat.add_0_r.
      * rewrite (Hsums k c' Hc'), length_app. simpl.
        replace (length log + 1 + k) with (length log + S k) by lia.
        by replace (i + S k) with (S (i + k)) by lia.
Qed.

Lemma chunk_tier_truthy meta total i chunks log sums log' :
  chunk_tier w meta total i chunks [] log = Some (sums, log') ->
  Forall (fun s => s <> []) sums.
Proof.
  destruct (chunk_tier_run meta total i chunks [] log)
    as (sums' & -> & Hlen & Hsums).
  intros [= <- _]. apply Forall_lookup. intros k s Hs.
  destruct (lookup_lt_is_Some_2 chunks k) as [c Hc].
  { rewrite <- Hlen. by apply lookup_lt_Some in Hs. }
  rewrite (Hsums k c Hc) in Hs. simplify_eq.
  destruct (chat w _ _) as [sum | e].
  - unfold or_else. destruct sum; [apply empty_marker_truthy | done].
  - apply failure_marker_truthy.
Qed.
End ChunkTier.

(** ** Reducer: what the commit tier is shown *)

Section MergePrompt.
Implicit Types (s t u : jsstring) (parts : list jsstring).

Lemma occurs_in_trans s t u : occurs_in s t -> occurs_in t u -> occurs_in s u.
Proof.
  intros (pre & post & ->) (pre' & post' & ->).
  exists (pre' ++ pre), (post ++ post'). by rewrite <- !(assoc_L (++)).
Qed.



End MergePrompt.

(** ** Reducer: one commit, all commits, the day *)

Section Run.
Variable cfg : Config.
Variable git : Git.
Variable w : World.
Implicit Types (meta : CommitMeta) (log : list jsstring).

Lemma commit_tier_run meta partSummaries log :
  commit_tier w meta partSummaries log
  = Some (match chat w (length log) (commitMergePrompt meta partSummaries) with
          | Resolved merged => merged
          | Rejected _ => join (nl ++ nl) partSummaries
          end,
          log ++ [commitMergePrompt meta partSummaries]).
Proof. reflexivity. Qed.

Lemma process_commit_zero meta log :
  trim (getDiff git (sha meta)) = [] ->
  process_commit cfg git w meta log = Some ((meta, zero_diff_summary), log).
Proof.
  intros Hzero. unfold process_commit. rewrite Hzero. cbn [truthy negb].
  by rewrite orb_true_r.
Qed.

Lemma process_commit_nonzero meta log chunks :
  trim (getDiff git (sha meta)) <> [] ->
  chunkBySize (splitPatchByFile (getDiff git (sha meta)))
    (DIFF_CHUNK_MAX_CHARS cfg) = Some chunks ->
  process_commit cfg git w meta log
  = match chunk_tier w meta (length chunks) 0 chunks [] log with
    | Some (partSummaries, log1) =>
      match commit_tier w meta partSummaries log1 with
      | Some (merged, log2) => Some ((meta, merged), log2)
      | None => None
      end
    | None => None
    end.
Proof.
  intros Hdiff Hchunks. unfold process_commit. rewrite Hchunks.
  apply truthy_true in Hdiff as Htrim. rewrite Htrim.
  assert (Hfull : truthy (getDiff git (sha meta)) = true).
  { apply truthy_true. by intros Hnil; rewrite Hnil in Hdiff. }
  rewrite Hfull. cbn [negb orb]. unfold bind, ret.
  destruct (chunk_tier _ _ _ _ _ _ _) as [[partSummaries log1]|]; [| done].
  by rewrite commit_tier_run.
Qed.



End Run.

(** ** Reducer: the claims *)

(** C2, as stated, fails. On a day when the three chunk requests of [c2]
    are answered and the merge request fails, the commit summary is the
    three chunk summaries joined by blank lines; the labeled concatenation,
    which [commitMergePrompt] builds for the prompt, is another string. *)
Lemma commit_merge_fallback_counterexample :
  trim (getDiff Sample.git (sha Sample.meta_c2)) <> []
  /\ chunk_tier Sample.merge_down_day Sample.meta_c2 3 0 Sample.chunks_c2 [] []
     = Some (Sample.sums_c2, Sample.chunk_prompts_c2)
  /\ chat Sample.merge_down_day (length Sample.chunk_prompts_c2)
       (commitMergePrompt Sample.meta_c2 Sample.sums_c2)
     = Rejected (lit "Error: socket hang up")
  /\ process_commit Sample.cfg Sample.git Sample.merge_down_day Sample.meta_c2 []
     = Some ((Sample.meta_c2,
              Sample.summary ++ nl ++ nl ++ Sample.summary ++ nl ++ nl
              ++ Sample.summary),
             Sample.chunk_prompts_c2
             ++ [commitMergePrompt Sample.meta_c2 Sample.sums_c2])
  /\ Sample.summary ++ nl ++ nl ++ Sample.summary ++ nl ++ nl ++ Sample.summary
     <> joined Sample.sums_c2.
Proof.
  split_and!; try (vm_compute; reflexivity).
  - intros Hnil. vm_compute in Hnil. discriminate Hnil.
  - intros Heq. vm_compute in Heq. discriminate Heq.
Qed.

(** C2, amended. For a commit whose diff is not empty and is cut into
    [chunks], the chunk tier leaves one summary per chunk, in chunk order;
    if the merge request then fails, the commit summary is these summaries
    joined by blank lines, with no position labels. *)
Theorem commit_merge_fallback (cfg : Config) (git : Git) (w : World)
    (meta : CommitMeta) (log chunks : list jsstring) :
  trim (getDiff git (sha meta)) <> [] ->
  chunkBySize (splitPatchByFile (getDiff git (sha meta)))
    (DIFF_CHUNK_MAX_CHARS cfg) = Some chunks ->
  exists partSummaries log1,
    chunk_tier w meta (length chunks) 0 chunks [] log = Some (partSummaries, log1)
    /\ length partSummaries = length chunks
    /\ (forall k c,
           chunks !! k = Some c ->
           partSummaries !! k
           = Some match chat w (length log + k)
                          (commitChunkPrompt meta (k + 1) (length chunks) c) with
                  | Resolved sum => or_else sum (empty_marker (k + 1))
                  | Rejected e => failure_marker (k + 1) e
                  end)
    /\ (forall e,
           chat w (length log1) (commitMergePrompt meta partSummaries)
           = Rejected e ->
           process_commit cfg git w meta log
           = Some ((meta, join (nl ++ nl) partSummaries),
                   log1 ++ [commitMergePrompt meta partSummaries])).
Proof.
  intros Hdiff Hchunks.
  destruct (chunk_tier_run w meta (length chunks) 0 chunks [] log)
    as (sums & Hrun & Hlen & Hsums).
  eexists sums, _. split_and!; [exact Hrun | exact Hlen | exact Hsums |].
  intros e Hfail.
  rewrite (process_commit_nonzero cfg git w meta log chunks Hdiff Hchunks).
  rewrite Hrun, commit_tier_run. cbn [app]. by rewrite Hfail.
Qed.

Lemma commit_merge_fallback_witness :
  trim (getDiff Sample.git (sha Sample.meta_c2)) <> []
  /\ chunkBySize (splitPatchByFile (getDiff Sample.git (sha Sample.meta_c2)))
       (DIFF_CHUNK_MAX_CHARS Sample.cfg) = Some Sample.chunks_c2
  /\ exists partSummaries log1,
       chunk_tier Sample.merge_down_day Sample.meta_c2
         (length Sample.chunks_c2) 0 Sample.chunks_c2 [] []
       = Some (partSummaries, log1)
       /\ process_commit Sample.cfg Sample.git Sample.merge_down_day
            Sample.meta_c2 []
          = Some ((Sample.meta_c2, join (nl ++ nl) partSummaries),
                  log1 ++ [commitMergePrompt Sample.meta_c2 partSummaries]).
Proof.
  assert (Hdiff : trim (getDiff Sample.git (sha Sample.meta_c2)) <> []).
  { intros Hnil. vm_compute in Hnil. discriminate Hnil. }
  assert (Hchunks :
            chunkBySize (splitPatchByFile (getDiff Sample.git (sha Sample.meta_c2)))
              (DIFF_CHUNK_MAX_CHARS Sample.cfg) = Some Sample.chunks_c2).
  { vm_compute. reflexivity. }
  split; [exact Hdiff |]. split; [exact Hchunks |].
  destruct (commit_merge_fallback Sample.cfg Sample.git Sample.merge_down_day
              Sample.meta_c2 [] Sample.chunks_c2 Hdiff Hchunks)
    as (partSummaries & log1 & Hrun & _ & _ & Hfallback).
  exists partSummaries, log1. split; [exact Hrun |].
  apply (Hfallback (lit "Error: socket hang up")).
  assert (Hrun' : chunk_tier Sample.merge_down_day Sample.meta_c2
                    (length Sample.chunks_c2) 0 Sample.chunks_c2 [] []
                  = Some (Sample.sums_c2, Sample.chunk_prompts_c2)).
  { vm_compute. reflexivity. }
  rewrite Hrun' in Hrun. injection Hrun as <- <-.
  vm_compute. reflexivity.
Defined.







(** C10. Every summary the chunk tier records is a non-empty string, a
    request answered with empty text being recorded as the marker made of
    the chunk's position; the commit tier has no such guard: when its
    request is answered with empty text, which [chat] does for a response
    that carries no content, the commit summary is the empty string. *)
Theorem chunk_summary_never_empty (w : World) (meta : CommitMeta)
    (chunks log : list jsstring) :
  (exists partSummaries log1,
      chunk_tier w meta (length chunks) 0 chunks [] log
      = Some (partSummaries, log1)
      /\ Forall (fun s => s <> []) partSummaries
      /\ forall k c,
           chunks !! k = Some c ->
           chat w (length log + k)
             (commitChunkPrompt meta (k + 1) (length chunks) c) = Resolved [] ->
           partSummaries !! k = Some (lit "（片段" ++ of_nat (k + 1) ++ lit "摘要为空）"))
  /\ (forall partSummaries,
         chat w (length log) (commitMergePrompt meta partSummaries) = Resolved [] ->
         commit_tier w meta partSummaries log
         = Some ([], log ++ [commitMergePrompt meta partSummaries]))
  /\ (forall n prompt code data,
         request w n prompt = Response code data ->
         status_ok code = true ->
         parse_content w data = Content None ->
         chat w n prompt = Resolved []).
Proof.
  split_and!.
  - destruct (chunk_tier_run w meta (length chunks) 0 chunks [] log)
      as (sums & Hrun & Hlen & Hsums).
    eexists sums, _. split_and!; [exact Hrun | |].
    + exact (chunk_tier_truthy w meta _ _ _ _ _ _ Hrun).
    + intros k c Hc Hempty. rewrite (Hsums k c Hc). cbn [Nat.add].
      by rewrite Hempty.
  - intros partSummaries Hempty. by rewrite commit_tier_run, Hempty.
  - intros n prompt code data Hresponse Hok Hcontent.
    unfold chat. by rewrite Hresponse, Hok, Hcontent.
Qed.

Lemma chunk_summary_never_empty_witness :
  Sample.chunks_c2 !! 0 = Some (lit "@@ -1 +1 @@" ++ nl ++ lit "-old line of f"
                                ++ nl ++ lit "+new line of ")
  /\ request Sample.silent_day 3 (commitMergePrompt Sample.meta_c2 [])
     = Response (Some 200%N) (lit "{}")
  /\ chat Sample.silent_day 3 (commitMergePrompt Sample.meta_c2 []) = Resolved []
  /\ commit_tier Sample.silent_day Sample.meta_c2 []
       [lit "p0"; lit "p1"; lit "p2"]
     = Some ([], [lit "p0"; lit "p1"; lit "p2"]
                 ++ [commitMergePrompt Sample.meta_c2 []])
  /\ exists partSummaries log1,
       chunk_tier Sample.silent_day Sample.meta_c2 (length Sample.chunks_c2) 0
         Sample.chunks_c2 [] [lit "p0"; lit "p1"; lit "p2"]
       = Some (partSummaries, log1)
       /\ Forall (fun s => s <> []) partSummaries
       /\ partSummaries !! 0
          = Some (lit "（片段" ++ of_nat 1 ++ lit "摘要为空）").
Proof.
  destruct (chunk_summary_never_empty Sample.silent_day Sample.meta_c2
              Sample.chunks_c2 [lit "p0"; lit "p1"; lit "p2"])
    as ((partSummaries & log1 & Hrun & Htruthy & Hmarker) & _ & Hchat).
  destruct (chunk_summary_never_empty Sample.silent_day Sample.meta_c2
              [] [lit "p0"; lit "p1"; lit "p2"])
    as (_ & Hmerge & _).
  assert (Hc : Sample.chunks_c2 !! 0
               = Some (lit "@@ -1 +1 @@" ++ nl ++ lit "-old line of f"
                       ++ nl ++ lit "+new line of "))
    by (vm_compute; reflexivity).
  assert (Hresponse : request Sample.silent_day 3
                        (commitMergePrompt Sample.meta_c2 [])
                      = Response (Some 200%N) (lit "{}"))
    by (vm_compute; reflexivity).
  assert (Hempty : chat Sample.silent_day 3 (commitMergePrompt Sample.meta_c2 [])
                   = Resolved []).
  { apply (Hchat 3 _ (Some 200%N) (lit "{}") Hresponse); reflexivity. }
  split; [exact Hc |]. split; [exact Hresponse |]. split; [exact Hempty |].
  split; [exact (Hmerge [] Hempty) |].
  exists partSummaries, log1. split; [exact Hrun |]. split; [exact Htruthy |].
  apply (Hmarker 0 _ Hc). vm_compute. reflexivity.
Defined.

(** * Further properties of the script *)

(** A closed decidable fact, by evaluation. *)
Ltac by_compute :=
  lazymatch goal with |- ?P => exact (bool_decide_unpack P I) end.

(** ** [trim] and [sh] *)

Section TrimFacts.
Implicit Types (s t ws : jsstring).

Lemma trim_start_split s :
  exists ws, s = ws ++ trim_start s /\ blank ws
             /\ forall c, head (trim_start s) = Some c -> is_space c = false.
Proof.
  induction s as [|c s (ws & Hs & Hws & Hhead)]; simpl.
  - exists []. split_and!; [done | constructor | done].
  - destruct (is_space c) eqn:Hc.
    + exists (c :: ws). split_and!; [by rewrite Hs at 1 | by constructor | done].
    + exists []. split_and!; [done | constructor |].
      intros c' [= <-]. exact Hc.
Qed.

Lemma trim_start_id s :
  (forall c, head s = Some c -> is_space c = false) -> trim_start s = s.
Proof. destruct s as [|c s]; [done |]. intros Hc. simpl. by rewrite Hc. Qed.

Lemma trim_start_blank ws s : blank ws -> trim_start (ws ++ s) = trim_start s.
Proof.
  induction 1 as [|c ws Hc _ IH]; [done |]. simpl. by rewrite Hc.
Qed.

Lemma trim_start_all_blank ws : blank ws -> trim_start ws = [].
Proof.
  intros Hws. rewrite <- (app_nil_r ws). by rewrite trim_start_blank.
Qed.

Lemma blank_reverse ws : blank ws -> blank (reverse ws).
Proof. unfold blank. intros Hws. by apply Forall_reverse. Qed.

Lemma blank_app ws1 ws2 : blank ws1 -> blank ws2 -> blank (ws1 ++ ws2).
Proof. unfold blank. intros. by apply Forall_app. Qed.

(** [trim] removes white space at both ends and nothing else. *)
Lemma trim_split s :
  exists ws1 ws2, s = ws1 ++ trim s ++ ws2 /\ blank ws1 /\ blank ws2
                  /\ clean (trim s).
Proof.
  unfold trim.
  destruct (trim_start_split s) as (ws1 & Hs & Hws1 & Hhead).
  destruct (trim_start_split (reverse (trim_start s))) as (ws & Ht & Hws & Hlast).
  set (u := trim_start (reverse (trim_start s))) in *.
  assert (Ht' : trim_start s = reverse u ++ reverse ws).
  { rewrite <- reverse_app, <- Ht. by rewrite reverse_involutive. }
  exists ws1, (reverse ws). split_and!.
  - by rewrite <- Ht'.
  - done.
  - by apply blank_reverse.
  - intros c [Hc | Hc].
    + apply Hhead. rewrite Ht'. destruct (reverse u); [done | exact Hc].
    + apply Hlast. by rewrite last_reverse in Hc.
Qed.

Lemma trim_pad ws1 ws2 s :
  blank ws1 -> blank ws2 -> clean s -> trim (ws1 ++ s ++ ws2) = s.
Proof.
  intros Hws1 Hws2 Hs. unfold trim. rewrite trim_start_blank by done.
  destruct s as [|c s].
  - simpl. rewrite (trim_start_all_blank ws2) by done. done.
  - rewrite (trim_start_id ((c :: s) ++ ws2)).
    + rewrite reverse_app, trim_start_blank by by apply blank_reverse.
      rewrite trim_start_id; [apply reverse_involutive |].
      intros c' Hc'. apply Hs. right. by rewrite <- head_reverse.
    + intros c' [= <-]. apply Hs. by left.
Qed.

Lemma trim_clean s : clean s -> trim s = s.
Proof.
  intros Hs. rewrite <- (trim_pad [] [] s) at 2; [| constructor | constructor | done].
  by rewrite app_nil_r.
Qed.

Lemma trim_idemp s : trim (trim s) = trim s.
Proof. destruct (trim_split s) as (_ & _ & _ & _ & _ & ?). by apply trim_clean. Qed.

Lemma trim_padded ws1 ws2 s :
  blank ws1 -> blank ws2 -> trim (ws1 ++ s ++ ws2) = trim s.
Proof.
  intros Hws1 Hws2.
  destruct (trim_split s) as (w1 & w2 & Hs & Hw1 & Hw2 & Hclean).
  rewrite Hs at 1.
  replace (ws1 ++ (w1 ++ trim s ++ w2) ++ ws2)
    with ((ws1 ++ w1) ++ trim s ++ (w2 ++ ws2))
    by (by rewrite <- !(assoc_L (++))).
  apply trim_pad; [by apply blank_app | by apply blank_app | done].
Qed.

Lemma trim_blank ws : blank ws -> trim ws = [].
Proof.
  intros Hws. rewrite <- (app_nil_r ws). change [] with (@nil N ++ []) at 1.
  rewrite (trim_padded ws [] []); [done | done | constructor].
Qed.

Lemma occurs_in_trim s : occurs_in (trim s) s.
Proof. destruct (trim_split s) as (ws1 & ws2 & Hs & _). by exists ws1, ws2. Qed.

Lemma token_clean s : token s -> clean s.
Proof.
  intros [_ Hs] c Hc. rewrite Forall_forall in Hs. apply Hs.
  destruct Hc as [Hc | Hc]; [by apply head_Some_elem_of | by apply last_Some_elem_of].
Qed.
End TrimFacts.

(** ** [split] and the lines of a command's output *)

Section SplitFacts.
Implicit Types (s cur x : jsstring) (xs : list jsstring).

Lemma split_on_not_in c s cur x :
  x ∈ split_on c s cur -> c ∉ cur -> c ∉ x.
Proof.
  revert cur. induction s as [|y s IH]; intros cur; simpl.
  - by intros ->%list_elem_of_singleton.
  - case_bool_decide as Hy.
    + intros [-> | Hx]%elem_of_cons Hcur; [done |].
      apply (IH [] Hx). apply not_elem_of_nil.
    + intros Hx Hcur. apply (IH _ Hx).
      rewrite elem_of_app, list_elem_of_singleton.
      intros [? | ->]; [done | by apply Hy].
Qed.

Lemma split_on_occurs c s cur x :
  x ∈ split_on c s cur -> occurs_in x (cur ++ s).
Proof.
  revert cur. induction s as [|y s IH]; intros cur; simpl.
  - intros ->%list_elem_of_singleton. rewrite app_nil_r. apply occurs_in_refl.
  - case_bool_decide as Hy.
    + intros [-> | Hx]%elem_of_cons.
      * apply occurs_in_app_l, occurs_in_refl.
      * apply occurs_in_app_r. apply (occurs_in_app_r _ _ [y]).
        exact (IH [] Hx).
    + intros Hx. apply IH in Hx. by rewrite <- (assoc_L (++)) in Hx.
Qed.

Lemma split_on_app c s r cur :
  c ∉ s -> split_on c (s ++ r) cur = split_on c r (cur ++ s).
Proof.
  revert cur. induction s as [|y s IH]; intros cur Hs; simpl.
  - by rewrite app_nil_r.
  - apply not_elem_of_cons in Hs as [Hy Hs].
    rewrite bool_decide_eq_false_2 by done.
    rewrite IH by done. by rewrite <- (assoc_L (++)).
Qed.

(** Splitting undoes joining, for pieces free of the separator. *)
Lemma split_on_join c x xs cur :
  Forall (fun y => c ∉ y) (x :: xs) ->
  split_on c (join [c] (x :: xs)) cur = (cur ++ x) :: xs.
Proof.
  revert x cur. induction xs as [|y xs IH]; intros x cur Hall.
  - apply Forall_cons in Hall as [Hx _]. simpl.
    rewrite <- (app_nil_r x) at 1. by rewrite split_on_app.
  - apply Forall_cons in Hall as [Hx Hall]. rewrite join_cons2.
    rewrite split_on_app by done. cbn [app split_on].
    rewrite bool_decide_eq_true_2 by done. by rewrite IH.
Qed.

Lemma clean_app_app s t m : s <> [] -> t <> [] -> clean s -> clean t ->
  clean (s ++ m ++ t).
Proof.
  intros Hs Ht Hcs Hct c [Hc | Hc].
  - apply Hcs. left. destruct s; [done | exact Hc].
  - apply Hct. right. rewrite (assoc_L (++)) in Hc.
    rewrite last_app in Hc. destruct (last t) eqn:Hlast; [done |].
    by apply last_None in Hlast.
Qed.

Lemma join_tokens_clean d xs :
  Forall token xs -> clean (join d xs) /\ (xs <> [] -> join d xs <> []).
Proof.
  induction xs as [|x [|y xs] IH]; intros Hall.
  - split; [by intros c [? | ?] | done].
  - apply Forall_cons in Hall as [Hx _]. split; [by apply token_clean |].
    intros _. apply Hx.
  - apply Forall_cons in Hall as [Hx Hall]. destruct (IH Hall) as [Hc Hne].
    rewrite join_cons2. split.
    + apply clean_app_app; [apply Hx | by apply Hne | by apply token_clean | done].
    + intros _ Hnil. apply app_eq_nil in Hnil as [Hnil _]. by apply Hx.
Qed.

Lemma token_no_line_feed x : token x -> 0x0A%N ∉ x.
Proof.
  intros [_ Hx] Hin. rewrite Forall_forall in Hx. by specialize (Hx _ Hin).
Qed.
End SplitFacts.

(** X1. [sh] strips white space at both ends of the output and nothing
    else, what it returns neither begins nor ends with white space, and
    stripping again changes nothing. *)
Theorem sh_output_trimmed (stdout : jsstring) :
  (exists ws1 ws2, stdout = ws1 ++ sh stdout ++ ws2 /\ blank ws1 /\ blank ws2)
  /\ clean (sh stdout)
  /\ sh (sh stdout) = sh stdout.
Proof.
  unfold sh. destruct (trim_split stdout) as (ws1 & ws2 & Hs & Hws1 & Hws2 & Hc).
  split_and!; [by exists ws1, ws2 | done | apply trim_idemp].
Qed.

(** X2. Every line read off a command's output is a non-empty string
    without white space at its ends and without a line feed, and is a
    contiguous part of the output. *)
Theorem sh_lines_entries (stdout x : jsstring) :
  x ∈ sh_lines stdout ->
  x <> [] /\ trim x = x /\ (0x0A%N ∉ x) /\ occurs_in x stdout.
Proof.
  unfold sh_lines, sh.
  intros [Hx (piece & -> & Hpiece)%list_elem_of_fmap]%list_elem_of_filter.
  split_and!.
  - by apply truthy_true.
  - apply trim_idemp.
  - intros Hin.
    assert (Hno : 0x0A%N ∉ piece).
    { apply (split_on_not_in _ _ _ _ Hpiece), not_elem_of_nil. }
    destruct (trim_split piece) as (ws1 & ws2 & Hs & _).
    apply Hno. rewrite Hs, !elem_of_app. auto.
  - apply (occurs_in_trans _ piece); [apply occurs_in_trim |].
    apply (occurs_in_trans _ (trim stdout)); [| apply occurs_in_trim].
    exact (split_on_occurs _ _ _ _ Hpiece).
Qed.

Lemma sh_lines_entries_witness :
  Sample.c2 ∈ sh_lines (log_branch Sample.git (lit "origin/main"))
  /\ Sample.c2 <> [] /\ trim Sample.c2 = Sample.c2 /\ (0x0A%N ∉ Sample.c2)
  /\ occurs_in Sample.c2 (log_branch Sample.git (lit "origin/main")).
Proof.
  assert (Hin : Sample.c2 ∈ sh_lines (log_branch Sample.git (lit "origin/main"))).
  { apply (list_elem_of_lookup_2 _ 1). vm_compute. reflexivity. }
  split; [exact Hin |].
  exact (sh_lines_entries _ _ Hin).
Defined.

(** X3. When a command prints tokens one per line, with any white space
    before the first and after the last, the lines read off its output
    are exactly these tokens, in order. *)
Theorem sh_lines_roundtrip (ws1 ws2 : jsstring) (ids : list jsstring) :
  Forall token ids -> blank ws1 -> blank ws2 ->
  sh_lines (ws1 ++ join nl ids ++ ws2) = ids.
Proof.
  intros Hall Hws1 Hws2. unfold sh_lines, sh.
  rewrite trim_pad by (done || by apply join_tokens_clean).
  assert (Hkeep : filter (fun s => truthy s = true) (trim <$> ids) = ids).
  { induction Hall as [|x ids Hx _ IH]; [done |]. csimpl.
    rewrite (trim_clean x) by by apply token_clean.
    rewrite filter_cons_True by (apply truthy_true, Hx). by rewrite IH. }
  destruct ids as [|x ids]; [done |].
  unfold nl. rewrite split_on_join; [done |].
  eapply Forall_impl; [exact Hall | apply token_no_line_feed].
Qed.

Lemma sh_lines_roundtrip_witness :
  Forall token [Sample.c1; Sample.c2; Sample.c3]
  /\ blank (lit " ") /\ blank nl
  /\ sh_lines (lit " " ++ join nl [Sample.c1; Sample.c2; Sample.c3] ++ nl)
     = [Sample.c1; Sample.c2; Sample.c3].
Proof.
  assert (Hids : Forall token [Sample.c1; Sample.c2; Sample.c3]).
  { repeat constructor; (done || (vm_compute; repeat constructor)). }
  assert (Hws1 : blank (lit " ")) by (vm_compute; repeat constructor).
  assert (Hws2 : blank nl) by (vm_compute; repeat constructor).
  split; [exact Hids |]. split; [exact Hws1 |]. split; [exact Hws2 |].
  exact (sh_lines_roundtrip _ _ _ Hids Hws1 Hws2).
Defined.

(** ** The per-branch map *)

Section BranchMap.
Context {V : Type}.
Implicit Types (k : jsstring) (v : V) (m : list (jsstring * V)).

Lemma map_set_keys k v m :
  (map_set k v m).*1 = if decide (k ∈ m.*1) then m.*1 else m.*1 ++ [k].
Proof.
  induction m as [|[k0 v0] m IH]; csimpl; [done |].
  destruct (decide (k = k0)) as [<- | Hne]; csimpl.
  - by rewrite decide_True by by left.
  - rewrite IH. destruct (decide (k ∈ m.*1)) as [Hin | Hout].
    + by rewrite decide_True by by right.
    + rewrite decide_False; [done |]. by intros [? | ?]%elem_of_cons.
Qed.

(** Keys are added in the order in which they are first set. *)
Lemma foldl_map_set_keys (f : jsstring -> V) (ks : list jsstring) m :
  NoDup m.*1 ->
  exists fresh,
    (foldl (fun m k => map_set k (f k) m) m ks).*1 = m.*1 ++ fresh
    /\ sublist fresh ks /\ NoDup (m.*1 ++ fresh).
Proof.
  revert m. induction ks as [|k ks IH]; intros m Hm; simpl.
  - exists []. rewrite app_nil_r. split_and!; [done | constructor | done].
  - assert (Hm1 : NoDup (map_set k (f k) m).*1).
    { rewrite map_set_keys. case_decide; [done |].
      apply NoDup_app. split_and!; [done | | apply NoDup_singleton].
      intros x Hx ->%list_elem_of_singleton. done. }
    destruct (IH _ Hm1) as (fresh & Hkeys & Hsub & Hnodup).
    rewrite map_set_keys in Hkeys, Hnodup.
    destruct (decide (k ∈ m.*1)).
    + exists fresh. split_and!; [done | by apply sublist_cons | done].
    + exists (k :: fresh). rewrite <- (assoc_L (++)) in Hkeys, Hnodup.
      split_and!; [done | by apply sublist_skip | done].
Qed.

(** The keys after a run of [set] calls: the keys there were, then the new
    ones where they are first set. *)
Lemma foldl_map_set_first (f : jsstring -> V) (ks : list jsstring) m :
  (foldl (fun m k => map_set k (f k) m) m ks).*1
  = m.*1 ++ filter (fun y => y ∉ m.*1) (first_listed ks).
Proof.
  revert m. induction ks as [|k ks IH]; intros m.
  - cbn [foldl first_listed]. by rewrite filter_nil, app_nil_r.
  - cbn [foldl first_listed]. rewrite IH, map_set_keys, filter_cons.
    destruct (decide (k ∈ m.*1)) as [Hin | Hout].
    + rewrite decide_False by (intros Hn; by apply Hn). f_equal.
      rewrite list_filter_filter. apply list_filter_iff.
      intros y. cbn beta. split; [| tauto]. intros Hy. split; [done |].
      by intros ->.
    + rewrite decide_True by done. rewrite <- (assoc_L (++)). f_equal.
      cbn [app]. f_equal.
      rewrite list_filter_filter. apply list_filter_iff.
      intros y. cbn beta. rewrite elem_of_app, list_elem_of_singleton. tauto.
Qed.
End BranchMap.

(** [filter] keeps the order of the entries it keeps. *)
Lemma filter_lookup_order {A} (P : A -> Prop) `{!forall x, Decision (P x)}
    (l : list A) (i j : nat) (a b : A) :
  i < j -> filter P l !! i = Some a -> filter P l !! j = Some b ->
  exists i' j', i' < j' /\ l !! i' = Some a /\ l !! j' = Some b.
Proof.
  revert i j. induction l as [|x l IH]; intros i j Hij Ha Hb; [done |].
  rewrite filter_cons in Ha, Hb. destruct (decide (P x)) as [Hx | Hx].
  - destruct i as [|i], j as [|j]; try lia.
    + injection Ha as ->. change (filter P l !! j = Some b) in Hb.
      apply list_elem_of_lookup_2, list_elem_of_filter in Hb as [_ Hb].
      apply list_elem_of_lookup_1 in Hb as [j' Hj'].
      exists 0, (S j'). split_and!; [lia | done | done].
    + destruct (IH i j) as (i' & j' & Hlt & Hi' & Hj'); [lia | done | done |].
      exists (S i'), (S j'). split_and!; [lia | done | done].
  - destruct (IH i j) as (i' & j' & Hlt & Hi' & Hj'); [lia | done | done |].
    exists (S i'), (S j'). split_and!; [lia | done | done].
Qed.

(** In [first_listed l] an entry stands before another one exactly when it
    is first listed in [l] before every place at which the other one is
    listed. *)
Lemma first_listed_order (l : list jsstring) (i j : nat) (a b : jsstring) :
  i < j -> first_listed l !! i = Some a -> first_listed l !! j = Some b ->
  exists i', l !! i' = Some a /\ forall j', l !! j' = Some b -> i' < j'.
Proof.
  revert i j. induction l as [|x l IH]; intros i j Hij Ha Hb; [done |].
  cbn [first_listed] in Ha, Hb. destruct j as [|j]; [lia |].
  assert (Hbx : b <> x).
  { change (filter (fun y => y <> x) (first_listed l) !! j = Some b) in Hb.
    by apply list_elem_of_lookup_2, list_elem_of_filter in Hb as [? _]. }
  destruct i as [|i].
  - injection Ha as ->. exists 0. split; [done |].
    intros [|j'] Hj'; [| lia]. injection Hj' as ->. done.
  - destruct (filter_lookup_order (fun y => y <> x) (first_listed l) i j a b)
      as (i1 & j1 & Hlt & Hi1 & Hj1); [lia | exact Ha | exact Hb |].
    destruct (IH i1 j1 Hlt Hi1 Hj1) as (i' & Hi' & Hafter).
    exists (S i'). split; [done |].
    intros [|j'] Hj'.
    + injection Hj' as ->. done.
    + apply Hafter in Hj'. lia.
Qed.

(** X4. [branchToCommits] has exactly one entry per remote branch, even
    for a branch that is listed more than once, in the order in which the
    branches are first listed, and the entry of a branch holds the ids
    kept for it.  The order is stated twice: the keys are the listing with
    every branch kept where it first stands; and a key stands before
    another one only if the first place at which it is listed comes before
    every place at which the other one is listed. *)
Theorem branchToCommits_entries (cfg : Config) (git : Git) :
  NoDup (branchToCommits cfg git).*1
  /\ sublist (branchToCommits cfg git).*1 (remoteBranches git)
  /\ (forall rb,
        rb ∈ remoteBranches git ->
        (rb, branch_commits cfg git rb) ∈ branchToCommits cfg git
        /\ forall shas, (rb, shas) ∈ branchToCommits cfg git ->
                        shas = branch_commits cfg git rb)
  /\ (branchToCommits cfg git).*1 = first_listed (remoteBranches git)
  /\ forall i j a b,
       i < j ->
       (branchToCommits cfg git).*1 !! i = Some a ->
       (branchToCommits cfg git).*1 !! j = Some b ->
       exists i', remoteBranches git !! i' = Some a
                  /\ forall j', remoteBranches git !! j' = Some b -> i' < j'.
Proof.
  destruct (foldl_map_set_keys (branch_commits cfg git) (remoteBranches git) [])
    as (fresh & Hkeys & Hsub & Hnodup); [constructor |].
  change (foldl _ [] (remoteBranches git)) with (branchToCommits cfg git) in Hkeys.
  assert (Hfirst : (branchToCommits cfg git).*1 = first_listed (remoteBranches git)).
  { unfold branchToCommits. rewrite foldl_map_set_first.
    cbn [fmap list_fmap app].
    generalize (first_listed (remoteBranches git)). intros l.
    induction l as [|x l IH]; [done |].
    rewrite filter_cons_True by apply not_elem_of_nil. by rewrite IH. }
  split_and!.
  - rewrite Hkeys. done.
  - rewrite Hkeys. done.
  - intros rb Hrb. split.
    + by apply elem_of_branchToCommits.
    + intros shas Hin. by apply elem_of_branchToCommits in Hin as [_ ->].
  - exact Hfirst.
  - rewrite Hfirst. intros i j a b. apply first_listed_order.
Qed.

Lemma branchToCommits_entries_witness :
  remoteBranches Sample.git_twice
  = [lit "origin/main"; lit "origin/dev"; lit "origin/main"]
  /\ (branchToCommits Sample.cfg Sample.git_twice).*1
     = [lit "origin/main"; lit "origin/dev"]
  /\ (lit "origin/main", branch_commits Sample.cfg Sample.git_twice (lit "origin/main"))
     ∈ branchToCommits Sample.cfg Sample.git_twice.
Proof.
  split; [vm_compute; reflexivity |]. split; [vm_compute; reflexivity |].
  apply (proj1 (proj2 (proj2
           (branchToCommits_entries Sample.cfg Sample.git_twice)))).
  apply (list_elem_of_lookup_2 _ 0). vm_compute. reflexivity.
Defined.

(** X5. Whatever the limit, the ids kept for a branch are an end piece of
    the branch's log, in the same order; with a positive limit they are its
    last [PER_BRANCH_LIMIT] ids, or all of them when the log is shorter. *)
Theorem branch_commits_suffix (cfg : Config) (git : Git) (rb : jsstring) :
  branch_commits cfg git rb `suffix_of` sh_lines (log_branch git rb)
  /\ ((0 < PER_BRANCH_LIMIT cfg)%Z ->
      length (branch_commits cfg git rb)
      = Nat.min (Z.to_nat (PER_BRANCH_LIMIT cfg))
          (length (sh_lines (log_branch git rb)))).
Proof.
  split; [apply suffix_drop |].
  intros Hpos. rewrite (branch_commits_keeps_last cfg git rb Hpos).
  cbv zeta. rewrite length_drop. lia.
Qed.

Lemma branch_commits_suffix_witness :
  (0 < PER_BRANCH_LIMIT Sample.cfg_limit1)%Z
  /\ sh_lines (log_branch Sample.git (lit "origin/dev"))
     = [Sample.c1; Sample.c2; Sample.c3]
  /\ length (branch_commits Sample.cfg_limit1 Sample.git (lit "origin/dev"))
     = Nat.min (Z.to_nat (PER_BRANCH_LIMIT Sample.cfg_limit1))
         (length (sh_lines (log_branch Sample.git (lit "origin/dev")))).
Proof.
  assert (Hpos : (0 < PER_BRANCH_LIMIT Sample.cfg_limit1)%Z) by done.
  split; [exact Hpos |]. split; [vm_compute; reflexivity |].
  exact (proj2 (branch_commits_suffix Sample.cfg_limit1 Sample.git
                  (lit "origin/dev")) Hpos).
Defined.

(** ** The diff fetcher *)

(** X6. When [git rev-list --parents] prints ids separated by single
    spaces, the parent is the second id, and there is none when only the
    commit's own id is printed; the diff is taken against that parent, or
    against the empty tree when there is none. *)
Theorem getParentSha_second_id (git : Git) (sha : jsstring)
    (ids : list jsstring) :
  Forall (fun id => id <> [] /\ 0x20%N ∉ id) ids ->
  sh (rev_list_parents git sha) = join (lit " ") ids ->
  getParentSha git sha = ids !! 1
  /\ getDiff git sha
     = sh (diff_base_sha git (default (sh (empty_tree git)) (ids !! 1)) sha).
Proof.
  intros Hids Hline.
  assert (Hparent : getParentSha git sha = ids !! 1).
  { assert (Hkeep : filter (fun s => truthy s = true) ids = ids).
    { clear Hline. induction Hids as [|x xs [Hx _] _ IH]; [done |].
      rewrite filter_cons_True by by apply truthy_true. by rewrite IH. }
    unfold getParentSha. rewrite Hline. change (lit " ") with [0x20%N].
    destruct ids as [|id ids]; [done |].
    rewrite split_on_join by (eapply Forall_impl; [exact Hids | by intros ? [_ ?]]).
    cbn [app]. by rewrite Hkeep. }
  split; [exact Hparent |].
  unfold getDiff. rewrite Hparent.
  destruct (ids !! 1) as [parent|] eqn:Hlookup; [| done].
  rewrite Forall_forall in Hids.
  destruct (Hids parent (list_elem_of_lookup_2 _ _ _ Hlookup)) as [Hne _].
  unfold or_else. by rewrite (proj2 (truthy_true parent) Hne).
Qed.

Lemma getParentSha_second_id_witness :
  Forall (fun id => id <> [] /\ 0x20%N ∉ id) [Sample.c2; lit "9f9f9f9f"]
  /\ sh (rev_list_parents Sample.git Sample.c2)
     = join (lit " ") [Sample.c2; lit "9f9f9f9f"]
  /\ getParentSha Sample.git Sample.c2 = Some (lit "9f9f9f9f")
  /\ getDiff Sample.git Sample.c2
     = sh (diff_base_sha Sample.git (lit "9f9f9f9f") Sample.c2).
Proof.
  assert (Hids : Forall (fun id => id <> [] /\ 0x20%N ∉ id)
                   [Sample.c2; lit "9f9f9f9f"]).
  { apply Forall_cons. split.
    { split; [done | by_compute]. }
    apply Forall_cons. split; [| constructor].
    split; [done | by_compute]. }
  assert (Hline : sh (rev_list_parents Sample.git Sample.c2)
                  = join (lit " ") [Sample.c2; lit "9f9f9f9f"])
    by (vm_compute; reflexivity).
  split; [exact Hids |]. split; [exact Hline |].
  exact (getParentSha_second_id Sample.git Sample.c2 _ Hids Hline).
Defined.

(** ** The splitter *)

Section SplitLoop.
Implicit Types (s b h cur rest x : jsstring).

Lemma split_loop_occurs s bol in_sep cur x :
  (in_sep = true -> cur = []) ->
  x ∈ split_loop s bol in_sep cur -> occurs_in x (cur ++ s).
Proof.
  revert bol in_sep cur. induction s as [|c s IH]; intros bol in_sep cur Hsep.
  - intros ->%list_elem_of_singleton. rewrite app_nil_r. apply occurs_in_refl.
  - cbn [split_loop]. destruct in_sep.
    + rewrite (Hsep eq_refl). cbn [app].
      destruct (is_line_terminator c).
      * intros Hx. by apply (IH _ _ [c]) in Hx.
      * intros Hx. apply (IH _ _ []) in Hx; [| done].
        by apply (occurs_in_app_r _ _ [c]).
    + destruct (bol && bool_decide (diff_git `prefix_of` c :: s)).
      * intros [-> | Hx]%elem_of_cons.
        -- apply occurs_in_app_l, occurs_in_refl.
        -- apply (IH _ _ []) in Hx; [| done].
           by apply occurs_in_app_r, (occurs_in_app_r _ _ [c]).
      * intros Hx. apply IH in Hx; [| done].
        by rewrite <- (assoc_L (++)) in Hx.
Qed.

(** Inside a header line the loop skips to the end of the line. *)
Lemma split_loop_header h rest bol cur :
  Forall (fun c => is_line_terminator c = false) h ->
  split_loop (h ++ nl ++ rest) bol true cur = split_loop rest true false nl.
Proof.
  intros Hh. revert bol. induction Hh as [|c h Hc _ IH]; intros bol.
  - reflexivity.
  - cbn [app split_loop]. rewrite Hc. apply IH.
Qed.

Lemma prefix_app_cases (l a b : jsstring) :
  l `prefix_of` a ++ b ->
  l `prefix_of` a \/ exists l', l' <> [] /\ l = a ++ l' /\ l' `prefix_of` b.
Proof.
  revert l. induction a as [|y a IH]; intros l Hl.
  - destruct l as [|z l]; [left; apply prefix_nil |].
    right. exists (z :: l). by split_and!.
  - destruct l as [|z l]; [left; apply prefix_nil |].
    cbn [app] in Hl. pose proof (prefix_cons_inv_1 _ _ _ _ Hl) as ->.
    apply prefix_cons_inv_2, IH in Hl as [Hl | (l' & Hne & -> & Hl')].
    + left. by apply prefix_cons.
    + right. by exists l'.
Qed.

Lemma prefix_occurs (l s : jsstring) : l `prefix_of` s -> occurs_in l s.
Proof. intros [k ->]. by exists [], k. Qed.

Lemma occurs_in_cons_inv (l : jsstring) c s :
  occurs_in l s -> occurs_in l (c :: s).
Proof. apply (occurs_in_app_r l s [c]). Qed.

(** Text in which no header begins is read into the current piece. *)
Lemma split_loop_text_end b bol cur :
  ~ occurs_in diff_git b -> split_loop b bol false cur = [cur ++ b].
Proof.
  revert bol cur. induction b as [|c b IH]; intros bol cur Hno.
  - by rewrite app_nil_r.
  - cbn [split_loop].
    rewrite (bool_decide_eq_false_2 (diff_git `prefix_of` c :: b))
      by (intros Hp; by apply Hno, prefix_occurs).
    rewrite andb_false_r, IH.
    + by rewrite <- (assoc_L (++)).
    + intros Hocc. by apply Hno, occurs_in_cons_inv.
Qed.

Lemma split_loop_text b rest bol cur :
  ~ occurs_in diff_git b ->
  split_loop (b ++ nl ++ rest) bol false cur
  = split_loop rest true false (cur ++ b ++ nl).
Proof.
  revert bol cur. induction b as [|c b IH]; intros bol cur Hno.
  - cbn [app nl split_loop].
    rewrite (bool_decide_eq_false_2 (diff_git `prefix_of` _ :: rest))
      by (by intros ?%prefix_cons_inv_1).
    by rewrite andb_false_r.
  - cbn [app split_loop].
    rewrite (bool_decide_eq_false_2 (diff_git `prefix_of` c :: b ++ nl ++ rest)).
    + rewrite andb_false_r, IH.
      * by rewrite <- (assoc_L (++)).
      * intros Hocc. by apply Hno, occurs_in_cons_inv.
    + intros [Hp | (l' & Hne & Heq & Hp)]%(prefix_app_cases _ (c :: b)).
      * by apply Hno, prefix_occurs.
      * destruct l' as [|z l']; [done |].
        apply prefix_cons_inv_1 in Hp as ->.
        assert (Hin : 0x0A%N ∈ diff_git).
        { rewrite Heq, elem_of_app. right. by left. }
        revert Hin. change (0x0A%N ∉ diff_git). by_compute.
Qed.

(** A header at the beginning of a line ends the current piece. *)
Lemma split_loop_section h rest cur :
  Forall (fun c => is_line_terminator c = false) h ->
  split_loop (diff_git ++ h ++ nl ++ rest) true false cur
  = cur :: split_loop rest true false nl.
Proof.
  intros Hh.
  assert (Hd : diff_git = 100%N :: lit "iff --git") by reflexivity.
  rewrite Hd at 1. cbn [app split_loop].
  rewrite bool_decide_eq_true_2 by (rewrite Hd; by eexists).
  cbn [andb]. f_equal.
  rewrite (assoc_L (++) (lit "iff --git") h). apply split_loop_header.
  apply Forall_app. split; [by_compute | done].
Qed.

(** The pieces of a patch made of file sections: what was being read
    before the first header, then the body of each file with the line ends
    around it. *)
Lemma split_loop_sections (hb : jsstring * jsstring)
    (files : list (jsstring * jsstring)) cur :
  Forall (fun hb => Forall (fun c => is_line_terminator c = false) hb.1
                    /\ ~ occurs_in diff_git hb.2) (hb :: files) ->
  exists pieces,
    split_loop (join nl (file_section <$> hb :: files)) true false cur
    = cur :: pieces
    /\ trim <$> pieces = (fun hb => trim hb.2) <$> hb :: files.
Proof.
  revert hb cur. induction files as [|hb' files IH]; intros [h b] cur Hall;
    apply Forall_cons in Hall as [[Hh Hb] Hall]; simpl in Hh, Hb.
  - exists [nl ++ b]. split.
    + change (join nl (file_section <$> [(h, b)]))
        with (diff_git ++ h ++ nl ++ b).
      rewrite split_loop_section by done. by rewrite split_loop_text_end.
    + reflexivity.
  - destruct (IH hb' (nl ++ b ++ nl) Hall) as (pieces & Hrun & Hpieces).
    exists ((nl ++ b ++ nl) :: pieces). split.
    + change (join nl (file_section <$> (h, b) :: hb' :: files))
        with ((diff_git ++ h ++ nl ++ b) ++ nl
              ++ join nl (file_section <$> hb' :: files)).
      rewrite <- !(assoc_L (++)).
      rewrite split_loop_section by done.
      rewrite split_loop_text by done. by rewrite Hrun.
    + rewrite fmap_cons, Hpieces, (trim_padded nl nl b) by by_compute.
      reflexivity.
Qed.

Lemma occurs_in_mentions (l s : jsstring) :
  occurs_in l s <-> mentions l s = true.
Proof.
  split.
  - intros (pre & post & ->). induction pre as [|c pre IH]; simpl.
    + destruct l; simpl; [by destruct post |].
      rewrite bool_decide_eq_true_2; [done | by eexists].
    + by rewrite IH, orb_true_r.
  - induction s as [|c s IH]; simpl.
    + rewrite orb_false_r. intros Hp%bool_decide_eq_true. by apply prefix_occurs.
    + intros [Hp%bool_decide_eq_true | Hm]%orb_true_iff.
      * by apply prefix_occurs.
      * by apply occurs_in_cons_inv, IH.
Qed.
End SplitLoop.

Lemma splitPatchByFile_truthy (patch u : jsstring) :
  u ∈ splitPatchByFile patch -> u <> [].
Proof.
  unfold splitPatchByFile. destruct (truthy patch); [| by intros ?%elem_of_nil].
  intros [Hu _]%list_elem_of_filter. by apply truthy_true.
Qed.

(** X7. Every unit of a patch is a non-empty string without white space
    at its ends, and is a contiguous part of the patch. *)
Theorem splitPatchByFile_units (patch u : jsstring) :
  u ∈ splitPatchByFile patch ->
  u <> [] /\ trim u = u /\ occurs_in u patch.
Proof.
  unfold splitPatchByFile. destruct (truthy patch); [| by intros ?%elem_of_nil].
  intros [Hu (piece & -> & Hpiece)%list_elem_of_fmap]%list_elem_of_filter.
  split_and!.
  - by apply truthy_true.
  - apply trim_idemp.
  - apply (occurs_in_trans _ piece); [apply occurs_in_trim |].
    by apply (split_loop_occurs _ _ _ [] _) in Hpiece.
Qed.

Lemma splitPatchByFile_units_witness :
  lit "@@ -3 +3 @@" ++ nl ++ lit "+new line of g"
  ∈ splitPatchByFile (getDiff Sample.git Sample.c2)
  /\ occurs_in (lit "@@ -3 +3 @@" ++ nl ++ lit "+new line of g")
       (getDiff Sample.git Sample.c2).
Proof.
  assert (Hin : lit "@@ -3 +3 @@" ++ nl ++ lit "+new line of g"
                ∈ splitPatchByFile (getDiff Sample.git Sample.c2)).
  { apply (list_elem_of_lookup_2 _ 1). vm_compute. reflexivity. }
  split; [exact Hin |].
  exact (proj2 (proj2 (splitPatchByFile_units _ _ Hin))).
Defined.

(** X8. A patch made of file sections, each a header line beginning with
    [diff --git] followed by a body in which [diff --git] does not occur,
    is split into the bodies, in order, each stripped of white space at
    its ends and left out when nothing remains: the header lines are
    dropped. *)
Theorem splitPatchByFile_sections (files : list (jsstring * jsstring)) :
  Forall (fun hb => Forall (fun c => is_line_terminator c = false) hb.1
                    /\ ~ occurs_in diff_git hb.2) files ->
  splitPatchByFile (join nl (file_section <$> files))
  = filter (fun s => truthy s = true) ((fun hb => trim hb.2) <$> files).
Proof.
  intros Hall. destruct files as [|hb files]; [done |].
  destruct (split_loop_sections hb files [] Hall) as (pieces & Hrun & Hpieces).
  assert (Htruthy : truthy (join nl (file_section <$> hb :: files)) = true).
  { destruct hb as [h b], files; reflexivity. }
  unfold splitPatchByFile. rewrite Htruthy, Hrun, (fmap_cons trim), Hpieces.
  by rewrite filter_cons_False by done.
Qed.

Lemma splitPatchByFile_sections_witness :
  Forall (fun hb => Forall (fun c => is_line_terminator c = false) hb.1
                    /\ ~ occurs_in diff_git hb.2) Sample.files_c2
  /\ getDiff Sample.git Sample.c2 = join nl (file_section <$> Sample.files_c2)
  /\ splitPatchByFile (join nl (file_section <$> Sample.files_c2))
     = [lit "@@ -1 +1 @@" ++ nl ++ lit "-old line of f" ++ nl
        ++ lit "+new line of f";
        lit "@@ -3 +3 @@" ++ nl ++ lit "+new line of g"].
Proof.
  assert (Hall : Forall (fun hb => Forall (fun c => is_line_terminator c = false) hb.1
                                   /\ ~ occurs_in diff_git hb.2) Sample.files_c2).
  { apply Forall_cons. split.
    { split; [by_compute |]. rewrite occurs_in_mentions. by vm_compute. }
    apply Forall_cons. split; [| constructor].
    split; [by_compute |]. rewrite occurs_in_mentions. by vm_compute. }
  split; [exact Hall |]. split; [vm_compute; reflexivity |].
  rewrite (splitPatchByFile_sections Sample.files_c2 Hall).
  vm_compute. reflexivity.
Defined.

(** X9. A patch in which [diff --git] does not occur is one unit, the
    patch stripped of white space at its ends, or none when it is blank. *)
Theorem splitPatchByFile_no_header (patch : jsstring) :
  ~ occurs_in diff_git patch ->
  splitPatchByFile patch = filter (fun s => truthy s = true) [trim patch].
Proof.
  intros Hno. unfold splitPatchByFile.
  destruct (truthy patch) eqn:Hpatch.
  - by rewrite split_loop_text_end.
  - by apply truthy_false in Hpatch as ->.
Qed.

Lemma splitPatchByFile_no_header_witness :
  ~ occurs_in diff_git (lit " Binary files a/x and b/x differ ")
  /\ splitPatchByFile (lit " Binary files a/x and b/x differ ")
     = [lit "Binary files a/x and b/x differ"].
Proof.
  assert (Hno : ~ occurs_in diff_git (lit " Binary files a/x and b/x differ ")).
  { rewrite occurs_in_mentions. by vm_compute. }
  split; [exact Hno |].
  rewrite (splitPatchByFile_no_header _ Hno). vm_compute. reflexivity.
Defined.

(** ** More on the chunker *)

Section ChunkerMore.
Implicit Types (p buf : jsstring) (parts out : list jsstring).

Lemma slice_loop_truthy fuel p limit i out res :
  slice_loop fuel p limit i out = Some res ->
  exists ss, res = out ++ ss /\ Forall (fun c => c <> []) ss.
Proof.
  destruct (decide (limit = 0)) as [-> | Hlimit].
  - destruct (decide (i < length p)) as [Hi | Hi].
    + by rewrite slice_loop_stuck.
    + destruct fuel; [done |]. simpl. rewrite bool_decide_eq_false_2 by done.
      intros [= <-]. exists []. by rewrite app_nil_r.
  - revert i out. induction fuel as [|fuel IH]; intros i out; simpl; [done |].
    case_bool_decide as Hi.
    + intros (ss & -> & Hss)%IH. exists (slice p i (i + limit) :: ss).
      split; [by rewrite <- (assoc_L (++)) |]. constructor; [| done].
      intros Hnil. apply (f_equal length) in Hnil. unfold slice in Hnil.
      rewrite length_take, length_drop in Hnil. simpl in Hnil. lia.
    + intros [= <-]. exists []. by rewrite app_nil_r.
Qed.

Lemma chunk_loop_truthy limit parts out buf res :
  chunk_loop limit parts out buf = Some res ->
  Forall (fun c => c <> []) out -> Forall (fun c => c <> []) res.
Proof.
  revert out buf. induction parts as [|p rest IH]; intros out buf.
  - rewrite chunk_loop_nil. intros [= <-] Hout.
    destruct (truthy buf) eqn:Hbuf; [| done].
    apply Forall_app. split; [done |]. by apply Forall_singleton, truthy_true.
  - rewrite chunk_loop_cons. intros Hrun Hout.
    assert (Hout1 : Forall (fun c => c <> [])
                      (if truthy buf then out ++ [buf] else out)).
    { destruct (truthy buf) eqn:Hbuf; [| done].
      apply Forall_app. split; [done |]. by apply Forall_singleton, truthy_true. }
    case_bool_decide; [case_bool_decide |].
    + destruct (slice_loop _ _ _ _ _) as [out2|] eqn:Hslices; [| done].
      apply slice_loop_truthy in Hslices as (ss & -> & Hss).
      apply (IH _ _ Hrun). by apply Forall_app.
    + by apply (IH _ _ Hrun).
    + by apply (IH _ _ Hrun).
Qed.

(** The slices of a unit, one by one. *)
Lemma slice_loop_lookup fuel p limit i out res :
  slice_loop fuel p limit i out = Some res ->
  exists ss,
    res = out ++ ss
    /\ forall k, ss !! k
                 = if bool_decide (i + k * limit < length p)
                   then Some (take limit (drop (i + k * limit) p))
                   else None.
Proof.
  revert i out. induction fuel as [|fuel IH]; intros i out; simpl; [done |].
  case_bool_decide as Hi.
  - intros (ss & -> & Hss)%IH. exists (slice p i (i + limit) :: ss).
    split; [by rewrite <- (assoc_L (++)) |].
    intros [|k]; simpl.
    + rewrite Nat.add_0_r, bool_decide_eq_true_2 by done.
      unfold slice. by replace (i + limit - i) with limit by lia.
    + rewrite Hss. by replace (i + limit + k * limit) with (i + (limit + k * limit)) by lia.
  - intros [= <-]. exists []. split; [by rewrite app_nil_r |].
    intros k. rewrite bool_decide_eq_false_2 by lia. done.
Qed.

(** When no unit is longer than the limit the loop never slices. *)
Lemma chunk_loop_whole limit parts out buf :
  Forall (fun p => length p <= limit) parts ->
  exists res,
    chunk_loop limit parts out buf = Some res
    /\ length res <= length out + length parts + (if truthy buf then 1 else 0)
    /\ (forall c, c ∈ out -> c ∈ res)
    /\ (buf <> [] -> exists c, c ∈ res /\ occurs_in buf c)
    /\ (forall p, p ∈ parts -> p <> [] -> exists c, c ∈ res /\ occurs_in p c).
Proof.
  intros Hfits. revert out buf.
  induction Hfits as [|p rest Hp _ IH]; intros out buf.
  - rewrite chunk_loop_nil. eexists. split; [done |].
    destruct (truthy buf) eqn:Hbuf.
    + rewrite length_app. simpl. split_and!; [lia | | | ].
      * intros c Hc. apply elem_of_app. by left.
      * intros _. exists buf. split; [| apply occurs_in_refl].
        apply elem_of_app. right. by left.
      * by intros p' ?%elem_of_nil.
    + split_and!; [lia | done | | by intros p' ?%elem_of_nil].
      intros Hne. by apply truthy_true in Hne; rewrite Hne in Hbuf.
  - rewrite chunk_loop_cons.
    rewrite (bool_decide_eq_false_2 (limit < length p)) by lia.
    set (candidate := if truthy buf then buf ++ sep ++ p else p).
    set (out1 := if truthy buf then out ++ [buf] else out).
    case_bool_decide as Hcand.
    + destruct (IH out1 p) as (res & Hrun & Hlen & Hout & Hbuf & Hrest).
      exists res. split; [done |].
      assert (Hlen1 : length out1 <= length out + (if truthy buf then 1 else 0)).
      { unfold out1. destruct (truthy buf); [rewrite length_app; simpl |]; lia. }
      split_and!.
      * simpl. destruct (truthy p); lia.
      * intros c Hc. apply Hout. unfold out1.
        destruct (truthy buf); [apply elem_of_app; by left | done].
      * intros Hne. exists buf. split; [| apply occurs_in_refl].
        apply Hout. unfold out1. rewrite (proj2 (truthy_true buf) Hne).
        apply elem_of_app. right. by left.
      * intros p' [-> | Hp']%elem_of_cons Hne; [by apply Hbuf | by apply Hrest].
    + destruct (IH out candidate) as (res & Hrun & Hlen & Hout & Hbuf & Hrest).
      exists res. split; [done |].
      split_and!.
      * simpl. destruct (truthy candidate), (truthy buf); lia.
      * done.
      * intros Hne. apply truthy_true in Hne as Htruthy.
        destruct Hbuf as (c & Hc & Hocc).
        { unfold candidate. rewrite Htruthy. by destruct buf. }
        exists c. split; [done |]. apply (occurs_in_trans _ candidate); [| done].
        unfold candidate. rewrite Htruthy. apply occurs_in_app_l, occurs_in_refl.
      * intros p' [-> | Hp']%elem_of_cons Hne; [| by apply Hrest].
        destruct Hbuf as (c & Hc & Hocc).
        { unfold candidate. destruct (truthy buf); [by destruct buf | done]. }
        exists c. split; [done |]. apply (occurs_in_trans _ candidate); [| done].
        unfold candidate. destruct (truthy buf).
        -- do 2 apply occurs_in_app_r. apply occurs_in_refl.
        -- apply occurs_in_refl.
Qed.

(** With limit 0 the call gives no result once a unit is non-empty. *)
Lemma chunk_loop_zero parts out :
  Exists (fun p => p <> []) parts -> chunk_loop 0 parts out [] = None.
Proof.
  induction 1 as [p rest Hp | p rest _ IH]; rewrite chunk_loop_cons; cbn [truthy].
  - assert (Hlen : 0 < length p) by (destruct p; [done | simpl; lia]).
    rewrite !bool_decide_eq_true_2 by done.
    by rewrite slice_loop_stuck.
  - destruct p as [|c p].
    + rewrite bool_decide_eq_false_2 by (simpl; lia). exact IH.
    + rewrite !bool_decide_eq_true_2 by (simpl; lia).
      by rewrite slice_loop_stuck by (simpl; lia).
Qed.
End ChunkerMore.

(** X10. [chunkBySize] never returns an empty chunk. *)
Theorem chunkBySize_no_empty_chunk (parts out : list jsstring) (limit : nat) :
  chunkBySize parts limit = Some out -> Forall (fun c => c <> []) out.
Proof. intros Hrun. by apply (chunk_loop_truthy _ _ _ _ _ Hrun). Qed.

Lemma chunkBySize_no_empty_chunk_witness :
  chunkBySize Sample.units_mixed 5 = Some Sample.chunks_mixed
  /\ Forall (fun c => c <> []) Sample.chunks_mixed.
Proof.
  assert (Hrun : chunkBySize Sample.units_mixed 5 = Some Sample.chunks_mixed)
    by reflexivity.
  split; [exact Hrun |].
  exact (chunkBySize_no_empty_chunk _ _ _ Hrun).
Defined.

(** X11. A single unit longer than a positive limit comes back as its
    consecutive slices: chunk number [k], counted from 0, is the [limit]
    characters of the unit from position [k * limit] on, fewer for the
    last one, and there are as many chunks as it takes to cover the unit. *)
Theorem chunkBySize_slices (p : jsstring) (limit : nat) :
  0 < limit -> limit < length p ->
  exists out,
    chunkBySize [p] limit = Some out
    /\ concat out = p
    /\ forall k, out !! k
                 = if bool_decide (k * limit < length p)
                   then Some (take limit (drop (k * limit) p))
                   else None.
Proof.
  intros Hlimit Hlong. unfold chunkBySize. rewrite chunk_loop_cons. cbn [truthy].
  rewrite !bool_decide_eq_true_2 by done.
  destruct (slice_loop_total (S (length p)) p limit 0 [] Hlimit) as [out Hrun];
    [lia |].
  rewrite Hrun, chunk_loop_nil. cbn [truthy]. exists out. split; [done |].
  destruct (slice_loop_sound _ _ _ _ _ _ Hrun) as (ss & -> & Hcat & _).
  destruct (slice_loop_lookup _ _ _ _ _ _ Hrun) as (ss' & [= ->] & Hss).
  split; [exact Hcat |]. exact Hss.
Qed.

Lemma chunkBySize_slices_witness :
  0 < 3 /\ 3 < length (lit "abcdefgh")
  /\ chunkBySize [lit "abcdefgh"] 3 = Some [lit "abc"; lit "def"; lit "gh"]
  /\ exists out,
       chunkBySize [lit "abcdefgh"] 3 = Some out
       /\ out !! 2 = Some (take 3 (drop (2 * 3) (lit "abcdefgh")))
       /\ out !! 3 = None.
Proof.
  assert (Hlimit : 0 < 3) by lia.
  assert (Hlong : 3 < length (lit "abcdefgh")) by (vm_compute; lia).
  split; [exact Hlimit |]. split; [exact Hlong |]. split; [reflexivity |].
  destruct (chunkBySize_slices (lit "abcdefgh") 3 Hlimit Hlong)
    as (out & Hrun & _ & Hout).
  exists out. split; [exact Hrun |].
  split; [exact (Hout 2) | exact (Hout 3)].
Defined.

(** X12. When no unit is longer than the limit, [chunkBySize] returns,
    with at most as many chunks as there are units, and cuts no unit:
    every non-empty unit is found whole inside one of the chunks. *)
Theorem chunkBySize_whole_units (parts : list jsstring) (limit : nat) :
  Forall (fun p => length p <= limit) parts ->
  exists out,
    chunkBySize parts limit = Some out
    /\ length out <= length parts
    /\ forall p, p ∈ parts -> p <> [] -> exists c, c ∈ out /\ occurs_in p c.
Proof.
  intros Hfits.
  destruct (chunk_loop_whole limit parts [] [] Hfits)
    as (out & Hrun & Hlen & _ & _ & Hunits).
  exists out. split_and!; [done | simpl in Hlen; lia | done].
Qed.

Lemma chunkBySize_whole_units_witness :
  Forall (fun p => length p <= 11) Sample.units_mixed
  /\ exists out,
       chunkBySize Sample.units_mixed 11 = Some out
       /\ length out <= length Sample.units_mixed
       /\ exists c, c ∈ out /\ occurs_in (lit "defghijklmn") c.
Proof.
  assert (Hfits : Forall (fun p => length p <= 11) Sample.units_mixed).
  { repeat (apply Forall_cons; split; [vm_compute; lia |]). constructor. }
  split; [exact Hfits |].
  destruct (chunkBySize_whole_units Sample.units_mixed 11 Hfits)
    as (out & Hrun & Hlen & Hunits).
  exists out. split; [exact Hrun |]. split; [exact Hlen |].
  apply Hunits; [| done].
  apply (list_elem_of_lookup_2 _ 2). reflexivity.
Defined.



(** ** The completion endpoint *)

(** X14. [chat] resolves only for a response with a status from 200 to
    299, and what it resolves with has no white space at its ends; for a
    response with any other status it rejects, and the error shows the
    status and the body. *)
Theorem chat_outcomes (w : World) (n : nat) (prompt : jsstring) :
  (forall content,
      chat w n prompt = Resolved content ->
      (exists code data, request w n prompt = Response (Some code) data
                         /\ (200 <= code < 300)%N)
      /\ trim content = content)
  /\ (forall code data,
         request w n prompt = Response code data ->
         status_ok code = false ->
         exists e, chat w n prompt = Rejected e
                   /\ occurs_in (status_text code) e /\ occurs_in data e).
Proof.
  unfold chat. split.
  - intros content.
    destruct (request w n prompt) as [e | [code|] data]; [done | | done].
    destruct (status_ok (Some code)) eqn:Hok; [| done].
    intros Hcontent. split.
    + exists code, data. split; [done |]. simpl in Hok.
      apply andb_true_iff in Hok as [[_ ?%N.leb_le]%andb_true_iff ?%N.ltb_lt].
      done.
    + destruct (parse_content w data) as [e | [c|]]; [done | |].
      * injection Hcontent as <-. unfold or_else.
        destruct (truthy (trim c)); [apply trim_idemp | done].
      * by injection Hcontent as <-.
  - intros code data -> ->. eexists. split; [done |]. split.
    + apply occurs_in_app_r, occurs_in_app_l, occurs_in_refl.
    + do 3 apply occurs_in_app_r. apply occurs_in_refl.
Qed.

Lemma chat_outcomes_witness :
  chat Sample.fine_day 0 (lit "prompt") = Resolved (lit "summary")
  /\ trim (lit "summary") = lit "summary"
  /\ request Sample.silent_day 1 (lit "prompt") = Response (Some 500%N) (lit "busy")
  /\ status_ok (Some 500%N) = false
  /\ exists e, chat Sample.silent_day 1 (lit "prompt") = Rejected e
               /\ occurs_in (status_text (Some 500%N)) e
               /\ occurs_in (lit "busy") e.
Proof.
  assert (Hok : chat Sample.fine_day 0 (lit "prompt") = Resolved (lit "summary"))
    by reflexivity.
  assert (Hresponse : request Sample.silent_day 1 (lit "prompt")
                      = Response (Some 500%N) (lit "busy")) by reflexivity.
  assert (Hstatus : status_ok (Some 500%N) = false) by reflexivity.
  split; [exact Hok |].
  split; [exact (proj2 (proj1 (chat_outcomes Sample.fine_day 0 (lit "prompt"))
                          _ Hok)) |].
  split; [exact Hresponse |]. split; [exact Hstatus |].
  exact (proj2 (chat_outcomes Sample.silent_day 1 (lit "prompt"))
           _ _ Hresponse Hstatus).
Defined.

(** ** The run *)

Section RunMore.
Variable cfg : Config.
Variable git : Git.
Variable w : World.
Implicit Types (meta : CommitMeta) (log : list jsstring).

Lemma getDiff_trimmed sha : trim (getDiff git sha) = getDiff git sha.
Proof. unfold getDiff, sh. apply trim_idemp. Qed.

(** The requests of a commit whose diff is not empty. *)
Lemma process_commit_log meta log chunks :
  getDiff git (sha meta) <> [] ->
  chunkBySize (splitPatchByFile (getDiff git (sha meta)))
    (DIFF_CHUNK_MAX_CHARS cfg) = Some chunks ->
  exists partSummaries summary,
    process_commit cfg git w meta log
    = Some ((meta, summary),
            log ++ imap (fun k c =>
                           commitChunkPrompt meta (k + 1) (length chunks) c)
                     chunks
                ++ [commitMergePrompt meta partSummaries])
    /\ length partSummaries = length chunks.
Proof.
  intros Hdiff Hchunks.
  rewrite (process_commit_nonzero cfg git w meta log chunks);
    [| by rewrite getDiff_trimmed | done].
  destruct (chunk_tier_run w meta (length chunks) 0 chunks [] log)
    as (sums & -> & Hlen & _).
  rewrite commit_tier_run. eexists sums, _. split; [| done].
  by rewrite <- (assoc_L (++)).
Qed.

Lemma process_commit_keeps meta log item log' :
  process_commit cfg git w meta log = Some (item, log') ->
  item.1 = meta /\ log `prefix_of` log'.
Proof.
  destruct (decide (getDiff git (sha meta) = [])) as [Hzero | Hdiff].
  - rewrite process_commit_zero by (by rewrite Hzero).
    by intros [= <- <-].
  - destruct (chunkBySize (splitPatchByFile (getDiff git (sha meta)))
                (DIFF_CHUNK_MAX_CHARS cfg)) as [chunks|] eqn:Hchunks.
    + destruct (process_commit_log meta log chunks Hdiff Hchunks)
        as (sums & summary & -> & _).
      intros [= <- <-]. split; [done | by eexists].
    + unfold process_commit. rewrite Hchunks, getDiff_trimmed.
      rewrite (proj2 (truthy_true _) Hdiff). done.
Qed.

Lemma process_commit_total meta log :
  0 < DIFF_CHUNK_MAX_CHARS cfg -> is_Some (process_commit cfg git w meta log).
Proof.
  intros Hlimit. destruct (decide (getDiff git (sha meta) = [])) as [Hzero | Hdiff].
  - rewrite process_commit_zero by (by rewrite Hzero). done.
  - destruct (chunk_loop_total (DIFF_CHUNK_MAX_CHARS cfg)
                (splitPatchByFile (getDiff git (sha meta))) [] [] Hlimit)
      as [chunks Hchunks].
    destruct (process_commit_log meta log chunks Hdiff Hchunks)
      as (sums & summary & -> & _). done.
Qed.

Lemma commit_loop_keeps metas perCommitFinal log items log' :
  commit_loop cfg git w metas perCommitFinal log = Some (items, log') ->
  items.*1 = perCommitFinal.*1 ++ metas /\ log `prefix_of` log'.
Proof.
  revert perCommitFinal log. induction metas as [|meta metas IH];
    intros perCommitFinal log; simpl.
  - intros [= <- <-]. by rewrite app_nil_r.
  - unfold bind at 1.
    destruct (process_commit cfg git w meta log) as [[item log1]|] eqn:Hitem;
      [| done].
    apply process_commit_keeps in Hitem as [Hmeta Hlog].
    intros [Hitems Hlog']%IH. split.
    + rewrite Hitems, fmap_app, <- (assoc_L (++)). simpl. by rewrite Hmeta.
    + by trans log1.
Qed.

Lemma commit_loop_total metas perCommitFinal log :
  0 < DIFF_CHUNK_MAX_CHARS cfg ->
  is_Some (commit_loop cfg git w metas perCommitFinal log).
Proof.
  intros Hlimit. revert perCommitFinal log.
  induction metas as [|meta metas IH]; intros perCommitFinal log; simpl; [done |].
  unfold bind at 1.
  destruct (process_commit_total meta log Hlimit) as [[item log1] ->].
  apply IH.
Qed.

(** The end of a run that reaches the daily tier. *)
Lemma main_daily log items daily log1 :
  main cfg git w log = Some (Some (items, daily), log1) ->
  exists log',
    commit_loop cfg git w (commitMetas cfg git) [] log = Some (items, log')
    /\ log1 = log' ++ [dailyMergePrompt (todayLabel w) items
                         (or_else (REPO cfg) (lit "repository"))]
    /\ daily = match chat w (length log')
                       (dailyMergePrompt (todayLabel w) items
                          (or_else (REPO cfg) (lit "repository"))) with
               | Resolved text => text
               | Rejected _ => daily_fallback items
               end.
Proof.
  unfold main. case_bool_decide; [done |]. unfold bind at 1.
  destruct (commit_loop _ _ _ _ _ _) as [[items' log']|]; [| done].
  unfold bind, daily_tier, call_chat, ret. intros [= <- <- <-]. by exists log'.
Qed.

Lemma occurs_in_daily_fallback (items : list (CommitMeta * jsstring)) meta summary :
  (meta, summary) ∈ items ->
  occurs_in summary (daily_fallback items)
  /\ occurs_in (slice (sha meta) 0 7) (daily_fallback items)
  /\ occurs_in (title meta) (daily_fallback items).
Proof.
  intros Hin. unfold daily_fallback.
  assert (Hentry : forall s,
             occurs_in s (lit "[" ++ slice (sha meta) 0 7 ++ lit "] " ++ title meta
                          ++ lit " — " ++ join (lit ", ") (branches meta) ++ nl
                          ++ summary) ->
             occurs_in s (lit "（当日汇总失败，以下为逐提交原始小结拼接）" ++ nl ++ nl
                          ++ join (nl ++ nl ++ lit "---" ++ nl ++ nl)
                               ((fun it : CommitMeta * jsstring =>
                                   lit "[" ++ slice (sha it.1) 0 7 ++ lit "] "
                                   ++ title it.1 ++ lit " — "
                                   ++ join (lit ", ") (branches it.1) ++ nl
                                   ++ it.2) <$> items))).
  { intros s Hs. do 3 apply occurs_in_app_r.
    eapply occurs_in_trans; [exact Hs |].
    apply occurs_in_join, list_elem_of_fmap. by exists (meta, summary). }
  split_and!; apply Hentry.
  - do 7 apply occurs_in_app_r. apply occurs_in_refl.
  - apply occurs_in_app_r, occurs_in_app_l, occurs_in_refl.
  - do 3 apply occurs_in_app_r. apply occurs_in_app_l, occurs_in_refl.
Qed.

Lemma label_from_lookup i parts k p :
  parts !! k = Some p ->
  label_from i parts !! k
  = Some (lit "【片段" ++ of_nat (i + k + 1) ++ lit "】" ++ nl ++ p).
Proof.
  revert i k. induction parts as [|q parts IH]; intros i [|k] Hk; simplify_eq/=.
  - by rewrite Nat.add_0_r.
  - rewrite (IH (S i) k Hk). by replace (S i + k) with (i + S k) by lia.
Qed.
End RunMore.

(** X15. For a commit whose diff is not the empty string, the requests
    sent are one per chunk, in chunk order, each with the chunk's 1-based
    position and the number of chunks, and then one merge request; the
    entry produced carries the commit's record unchanged. *)
Theorem process_commit_requests (cfg : Config) (git : Git) (w : World)
    (meta : CommitMeta) (log chunks : list jsstring) :
  getDiff git (sha meta) <> [] ->
  chunkBySize (splitPatchByFile (getDiff git (sha meta)))
    (DIFF_CHUNK_MAX_CHARS cfg) = Some chunks ->
  exists partSummaries summary,
    process_commit cfg git w meta log
    = Some ((meta, summary),
            log ++ imap (fun k c =>
                           commitChunkPrompt meta (k + 1) (length chunks) c)
                     chunks
                ++ [commitMergePrompt meta partSummaries])
    /\ length partSummaries = length chunks.
Proof. apply process_commit_log. Qed.

Lemma process_commit_requests_witness :
  getDiff Sample.git (sha Sample.meta_c2) <> []
  /\ chunkBySize (splitPatchByFile (getDiff Sample.git (sha Sample.meta_c2)))
       (DIFF_CHUNK_MAX_CHARS Sample.cfg) = Some Sample.chunks_c2
  /\ length Sample.chunks_c2 = 3
  /\ exists partSummaries summary,
       process_commit Sample.cfg Sample.git Sample.fine_day Sample.meta_c2 []
       = Some ((Sample.meta_c2, summary),
               [] ++ Sample.chunk_prompts_c2
                  ++ [commitMergePrompt Sample.meta_c2 partSummaries])
       /\ length partSummaries = length Sample.chunks_c2.
Proof.
  assert (Hdiff : getDiff Sample.git (sha Sample.meta_c2) <> []).
  { intros Hnil. vm_compute in Hnil. discriminate Hnil. }
  assert (Hchunks :
            chunkBySize (splitPatchByFile (getDiff Sample.git (sha Sample.meta_c2)))
              (DIFF_CHUNK_MAX_CHARS Sample.cfg) = Some Sample.chunks_c2)
    by (vm_compute; reflexivity).
  split; [exact Hdiff |]. split; [exact Hchunks |].
  split; [vm_compute; reflexivity |].
  exact (process_commit_requests Sample.cfg Sample.git Sample.fine_day
           Sample.meta_c2 [] Sample.chunks_c2 Hdiff Hchunks).
Defined.

(** X16. A run that reaches the daily tier has produced exactly one entry
    per collected commit, in the collector's order, and has only added
    requests to the log. *)
Theorem main_entries (cfg : Config) (git : Git) (w : World)
    (log log1 : list jsstring) (items : list (CommitMeta * jsstring))
    (daily : jsstring) :
  main cfg git w log = Some (Some (items, daily), log1) ->
  items.*1 = commitMetas cfg git
  /\ sha <$> items.*1 = commitShas cfg git
  /\ log `prefix_of` log1.
Proof.
  intros (log' & [Hitems Hlog]%commit_loop_keeps & -> & _)%main_daily.
  rewrite Hitems.
  change ((@nil (CommitMeta * jsstring)).*1 ++ commitMetas cfg git)
    with (commitMetas cfg git).
  split_and!.
  - done.
  - unfold commitMetas. rewrite <- list_fmap_compose. apply list_fmap_id.
  - by apply prefix_app_r.
Qed.

Lemma main_entries_witness :
  exists items daily log1,
    main Sample.cfg Sample.git Sample.fine_day [] = Some (Some (items, daily), log1)
    /\ sha <$> items.*1 = [Sample.c1; Sample.c2; Sample.c3].
Proof.
  destruct (main Sample.cfg Sample.git Sample.fine_day [])
    as [[[[items daily]|] log1]|] eqn:Hmain.
  - exists items, daily, log1. split; [reflexivity |].
    rewrite (proj1 (proj2 (main_entries _ _ _ _ _ _ _ Hmain))).
    vm_compute. reflexivity.
  - vm_compute in Hmain. discriminate Hmain.
  - vm_compute in Hmain. discriminate Hmain.
Defined.

(** X17. No answer of the completion endpoint stops the run.  For the
    runs this model describes, those whose git commands all succeeded and
    whose requests all settle, and with a positive chunk size, [main]
    comes to its end with a result in every world: each failure of the
    endpoint is caught where it occurs. *)
Theorem main_returns (cfg : Config) (git : Git) (w : World)
    (log : list jsstring) :
  0 < DIFF_CHUNK_MAX_CHARS cfg ->
  exists result log1, main cfg git w log = Some (result, log1).
Proof.
  intros Hlimit. unfold main. case_bool_decide; [by eexists _, _ |].
  unfold bind at 1.
  destruct (commit_loop_total cfg git w (commitMetas cfg git) [] log Hlimit)
    as [[items log'] ->].
  by eexists _, _.
Qed.

Lemma main_returns_witness :
  0 < DIFF_CHUNK_MAX_CHARS Sample.cfg
  /\ exists result log1,
       main Sample.cfg Sample.git Sample.merge_down_day [] = Some (result, log1).
Proof.
  assert (Hlimit : 0 < DIFF_CHUNK_MAX_CHARS Sample.cfg) by (simpl; lia).
  split; [exact Hlimit |].
  exact (main_returns Sample.cfg Sample.git Sample.merge_down_day [] Hlimit).
Defined.

(** X18. The run ends early, without a report, exactly when no id of the
    global scan is kept by a remote branch, and then it has sent no
    request. *)
Theorem main_no_commits (cfg : Config) (git : Git) (w : World)
    (log : list jsstring) :
  ((forall id rb, id ∈ allShasOrdered git -> rb ∈ remoteBranches git ->
                  id ∉ branch_commits cfg git rb)
   <-> main cfg git w log = Some (None, log))
  /\ forall log1, main cfg git w log = Some (None, log1) -> log1 = log.
Proof.
  assert (Hnone : forall log1, main cfg git w log = Some (None, log1) ->
                               commitShas cfg git = [] /\ log1 = log).
  { intros log1. unfold main. case_bool_decide as Hlen.
    - intros [= <-]. split; [by apply length_zero_iff_nil | done].
    - unfold bind at 1.
      destruct (commit_loop _ _ _ _ _ _) as [[items log']|]; [| done].
      by unfold bind, daily_tier, call_chat, ret. }
  split; [split |].
  - intros Hnone'. unfold main. rewrite bool_decide_eq_true_2; [done |].
    destruct (commitShas cfg git) as [|id ids] eqn:Hshas; [done |].
    assert (Hid : id ∈ commitShas cfg git) by (rewrite Hshas; by left).
    apply elem_of_commitShas in Hid as (Hscan & rb & Hrb & Hkept).
    by destruct (Hnone' id rb).
  - intros [Hshas _]%Hnone id rb Hscan Hrb Hkept.
    assert (Hid : id ∈ commitShas cfg git).
    { apply elem_of_commitShas. split; [done |]. by exists rb. }
    rewrite Hshas in Hid. by apply elem_of_nil in Hid.
  - intros log1 Hrun. by apply Hnone in Hrun as [_ ->].
Qed.

Lemma main_no_commits_witness :
  (forall id rb, id ∈ allShasOrdered Sample.git_quiet ->
                 rb ∈ remoteBranches Sample.git_quiet ->
                 id ∉ branch_commits Sample.cfg Sample.git_quiet rb)
  /\ main Sample.cfg Sample.git_quiet Sample.fine_day [lit "earlier"]
     = Some (None, [lit "earlier"]).
Proof.
  assert (Hmain : main Sample.cfg Sample.git_quiet Sample.fine_day [lit "earlier"]
                  = Some (None, [lit "earlier"])) by (vm_compute; reflexivity).
  split; [| exact Hmain].
  exact (proj2 (proj1 (main_no_commits Sample.cfg Sample.git_quiet
                         Sample.fine_day [lit "earlier"])) Hmain).
Defined.

(** X19. In a run that reaches the daily tier the last request is the
    daily prompt; when it is answered the report is the answer, and when
    it fails the report is the fallback text, in which the summary, the
    short id and the title of every commit can be read. *)
Theorem daily_report (cfg : Config) (git : Git) (w : World)
    (log log1 : list jsstring) (items : list (CommitMeta * jsstring))
    (daily : jsstring) :
  main cfg git w log = Some (Some (items, daily), log1) ->
  exists log',
    log1 = log' ++ [dailyMergePrompt (todayLabel w) items
                      (or_else (REPO cfg) (lit "repository"))]
    /\ (forall text,
           chat w (length log')
             (dailyMergePrompt (todayLabel w) items
                (or_else (REPO cfg) (lit "repository"))) = Resolved text ->
           daily = text)
    /\ (forall e,
           chat w (length log')
             (dailyMergePrompt (todayLabel w) items
                (or_else (REPO cfg) (lit "repository"))) = Rejected e ->
           daily = daily_fallback items
           /\ forall meta summary,
                (meta, summary) ∈ items ->
                occurs_in summary daily
                /\ occurs_in (slice (sha meta) 0 7) daily
                /\ occurs_in (title meta) daily).
Proof.
  intros (log' & _ & -> & Hdaily)%main_daily. exists log'.
  split; [done |]. split.
  - intros text Htext. by rewrite Htext in Hdaily.
  - intros e He. rewrite He in Hdaily. split; [done |].
    intros meta summary Hin. rewrite Hdaily.
    by apply occurs_in_daily_fallback.
Qed.

Lemma daily_report_witness :
  exists items daily log1 log',
    main Sample.cfg Sample.git Sample.merge_down_day []
    = Some (Some (items, daily), log1)
    /\ log1 = log' ++ [dailyMergePrompt (todayLabel Sample.merge_down_day) items
                         (or_else (REPO Sample.cfg) (lit "repository"))]
    /\ length log' = 6
    /\ daily = daily_fallback items.
Proof.
  destruct (main Sample.cfg Sample.git Sample.merge_down_day [])
    as [[[[items daily]|] log1]|] eqn:Hmain.
  - destruct (daily_report _ _ _ _ _ _ _ Hmain) as (log' & Hlog & _ & Hfail).
    exists items, daily, log1, log'. split; [reflexivity |]. split; [exact Hlog |].
    assert (Hlen : length log' = 6).
    { apply (f_equal length) in Hlog. rewrite length_app in Hlog. simpl in Hlog.
      assert (Hlen1 : length log1 = 7).
      { vm_compute in Hmain. injection Hmain as _ _ <-. reflexivity. }
      lia. }
    split; [exact Hlen |].
    apply (Hfail (lit "Error: socket hang up")). rewrite Hlen. reflexivity.
  - vm_compute in Hmain. discriminate Hmain.
  - vm_compute in Hmain. discriminate Hmain.
Defined.

(** X20. The prompt of the commit tier shows every chunk summary under
    the label of its 1-based position. *)
Theorem commitMergePrompt_labels (meta : CommitMeta) (parts : list jsstring)
    (k : nat) (p : jsstring) :
  parts !! k = Some p ->
  occurs_in (lit "【片段" ++ of_nat (k + 1) ++ lit "】" ++ nl ++ p)
    (commitMergePrompt meta parts).
Proof.
  intros Hk. apply (occurs_in_trans _ (joined parts)).
  - apply occurs_in_join.
    apply (list_elem_of_lookup_2 _ k). by rewrite (label_from_lookup 0 parts k p).
  - unfold commitMergePrompt.
    repeat lazymatch goal with
           | |- occurs_in _ (joined _ ++ _) => fail
           | |- occurs_in _ (_ ++ _) => apply occurs_in_app_r
           end.
    apply occurs_in_app_l, occurs_in_refl.
Qed.

Lemma commitMergePrompt_labels_witness :
  Sample.sums_c2 !! 2 = Some Sample.summary
  /\ occurs_in (lit "【片段" ++ of_nat 3 ++ lit "】" ++ nl ++ Sample.summary)
       (commitMergePrompt Sample.meta_c2 Sample.sums_c2).
Proof.
  assert (Hk : Sample.sums_c2 !! 2 = Some Sample.summary) by reflexivity.
  split; [exact Hk |].
  exact (commitMergePrompt_labels Sample.meta_c2 Sample.sums_c2 2 _ Hk).
Defined.

(** X21. With the chunk size set to 0 the run is cut short, and reports
    nothing, once a collected commit has a diff with a unit in it: the
    chunker gives no result for that commit, whatever the completion
    endpoint answers, so that neither the entry of the commit nor the
    report is produced. *)
Theorem main_aborts_on_zero_chunk_size (cfg : Config) (git : Git) (w : World)
    (meta : CommitMeta) (log : list jsstring) :
  DIFF_CHUNK_MAX_CHARS cfg = 0 ->
  meta ∈ commitMetas cfg git ->
  splitPatchByFile (getDiff git (sha meta)) <> [] ->
  chunkBySize (splitPatchByFile (getDiff git (sha meta)))
    (DIFF_CHUNK_MAX_CHARS cfg) = None
  /\ (forall l, process_commit cfg git w meta l = None)
  /\ main cfg git w log = None.
Proof.
  intros Hzero Hmeta Hunits.
  assert (Hchunks : chunkBySize (splitPatchByFile (getDiff git (sha meta)))
                      (DIFF_CHUNK_MAX_CHARS cfg) = None).
  { rewrite Hzero. unfold chunkBySize. rewrite chunk_loop_zero; [done |].
    destruct (splitPatchByFile (getDiff git (sha meta))) as [|u us] eqn:Hsplit;
      [done |].
    left. apply (splitPatchByFile_truthy (getDiff git (sha meta))).
    rewrite Hsplit. by left. }
  assert (Habort : forall l, process_commit cfg git w meta l = None).
  { intros l. unfold process_commit.
    assert (Hdiff : getDiff git (sha meta) <> []).
    { intros Hnil. rewrite Hnil in Hunits. by apply Hunits. }
    rewrite getDiff_trimmed, (proj2 (truthy_true _) Hdiff). cbn [negb orb].
    by rewrite Hchunks. }
  assert (Hloop : forall metas acc l,
             meta ∈ metas -> commit_loop cfg git w metas acc l = None).
  { induction metas as [|m metas IH]; intros acc l Hin; [by apply elem_of_nil in Hin |].
    simpl. unfold bind at 1.
    apply elem_of_cons in Hin as [<- | Hin]; [by rewrite Habort |].
    destruct (process_commit cfg git w m l) as [[item l']|]; [| done].
    by apply IH. }
  split; [exact Hchunks |]. split; [exact Habort |].
  unfold main. rewrite bool_decide_eq_false_2.
  - unfold bind at 1. by rewrite Hloop.
  - unfold commitMetas in Hmeta. destruct (commitShas cfg git); [| done].
    by apply elem_of_nil in Hmeta.
Qed.

Lemma main_aborts_on_zero_chunk_size_witness :
  DIFF_CHUNK_MAX_CHARS Sample.cfg_chunk0 = 0
  /\ commitMeta Sample.cfg_chunk0 Sample.git Sample.c2
     ∈ commitMetas Sample.cfg_chunk0 Sample.git
  /\ splitPatchByFile (getDiff Sample.git Sample.c2) <> []
  /\ main Sample.cfg_chunk0 Sample.git Sample.fine_day [] = None.
Proof.
  assert (Hzero : DIFF_CHUNK_MAX_CHARS Sample.cfg_chunk0 = 0) by reflexivity.
  assert (Hmeta : commitMeta Sample.cfg_chunk0 Sample.git Sample.c2
                  ∈ commitMetas Sample.cfg_chunk0 Sample.git).
  { apply (list_elem_of_lookup_2 _ 1). vm_compute. reflexivity. }
  assert (Hunits : splitPatchByFile (getDiff Sample.git Sample.c2) <> []).
  { intros Hnil. vm_compute in Hnil. discriminate Hnil. }
  split; [exact Hzero |]. split; [exact Hmeta |]. split; [exact Hunits |].
  exact (proj2 (proj2 (main_aborts_on_zero_chunk_size Sample.cfg_chunk0
                         Sample.git Sample.fine_day _ [] Hzero Hmeta Hunits))).
Defined.
